(** * Hong-Kong-Fire-Documentary: the content scraper

    A shallow embedding of [scripts/scrapers/content_scraper/scraper.py]
    and the properties of its registry, slug, partitioning, archive,
    fetch and scheduling code.

    Conventions of the embedding.
    - A Python [str] is a [string]; its characters are the ASCII code
      points.  On such text [unicodedata.normalize("NFKD", _)] is the
      identity, [str.lower] lowers [A-Z], the regular-expression class
      [\w] is [[a-zA-Z0-9_]] and [\s] is the Unicode white space below
      128 (code points 9-13, 28-31 and 32).
    - A Python [int] is a [Z].
    - A call that may raise returns a [py_result].
    - Calls into the outside world (browser, HTTP, file system) read
      their outcome from an explicit environment and leave an [event]
      in a trace. *)

From Stdlib Require Import ZArith Lia Ascii String.
From stdpp Require Import gmap strings list pretty.

Local Open Scope Z_scope.

(** ** Python values common to all parts *)

Inductive exn_class :=
  | PlaywrightTimeout
  | PlaywrightError
  | ValueError
  | JSONDecodeError
  | OSError
  | FileNotFoundError
  | IndexError
  | OtherException.

Record exn := Exn { exn_cls : exn_class; exn_msg : string }.

Inductive py_result (A : Type) :=
  | Ret (a : A)
  | Raise (e : exn).
Arguments Ret {A} a.
Arguments Raise {A} e.

#[global] Instance exn_class_eq_dec : EqDecision exn_class.
Proof. solve_decision. Defined.

(** ** Strings as Python uses them *)

Module PyStr.

Definition chars (s : string) : list ascii := list_ascii_of_string s.
Definition of_chars (l : list ascii) : string := string_of_list_ascii l.

Definition code (c : ascii) : N := N_of_ascii c.

Definition hyphen : ascii := "-"%char.

Definition is_hyphen (c : ascii) : bool := (code c =? 45)%N.

Definition is_upper (c : ascii) : bool :=
  ((65 <=? code c) && (code c <=? 90))%N.

Definition is_lower_letter (c : ascii) : bool :=
  ((97 <=? code c) && (code c <=? 122))%N.

Definition is_digit (c : ascii) : bool :=
  ((48 <=? code c) && (code c <=? 57))%N.

(** [\w] on ASCII text. *)
Definition is_word (c : ascii) : bool :=
  is_lower_letter c || is_upper c || is_digit c || (code c =? 95)%N.

(** [\s] on ASCII text: tab, LF, VT, FF, CR, the four separators
    FS GS RS US, and the space. *)
Definition is_space (c : ascii) : bool :=
  (((9 <=? code c) && (code c <=? 13))
   || ((28 <=? code c) && (code c <=? 32)))%N.

Definition lower_char (c : ascii) : ascii :=
  if is_upper c then ascii_of_N (code c + 32) else c.

(** [s.lower()] *)
Definition lower (l : list ascii) : list ascii := map lower_char l.

(** [needle in s], and [s.find(needle) > -1]. *)
Fixpoint starts_with (p s : list ascii) : bool :=
  match p, s with
  | [], _ => true
  | _ :: _, [] => false
  | a :: p', b :: s' => bool_decide (a = b) && starts_with p' s'
  end.

Fixpoint contains_chars (needle s : list ascii) : bool :=
  starts_with needle s ||
  match s with
  | [] => false
  | _ :: s' => contains_chars needle s'
  end.

Definition contains (needle s : string) : bool :=
  contains_chars (chars needle) (chars s).

(** [s.replace(old, "")] for a non-empty [old]: scan from the left,
    drop each non-overlapping occurrence.  The fuel is the length of
    the text, which every scan position stays below. *)
Fixpoint remove_all_fuel (fuel : nat) (old s : list ascii) : list ascii :=
  match fuel with
  | O => s
  | S fuel' =>
      match s with
      | [] => []
      | c :: s' =>
          if starts_with old s
          then remove_all_fuel fuel' old (drop (length old) s)
          else c :: remove_all_fuel fuel' old s'
      end
  end.

Definition remove_all (old s : string) : string :=
  of_chars (remove_all_fuel (length (chars s)) (chars old) (chars s)).


(** [s[:n]] with Python's treatment of a negative bound. *)
Definition slice_to {A} (n : Z) (l : list A) : list A :=
  if 0 <=? n then take (Z.to_nat n) l
  else take (Z.to_nat (Z.of_nat (length l) + n)) l.

(** [s.rsplit("-", 1)[0]]: the text before the last hyphen, the whole
    text when there is none. *)
Fixpoint before_last_hyphen (l : list ascii) : option (list ascii) :=
  match l with
  | [] => None
  | c :: r =>
      match before_last_hyphen r with
      | Some p => Some (c :: p)
      | None => if is_hyphen c then Some [] else None
      end
  end.

Definition rsplit1_head (l : list ascii) : list ascii :=
  default l (before_last_hyphen l).

(** [s.strip("-")] *)
Fixpoint lstrip_hyphen (l : list ascii) : list ascii :=
  match l with
  | [] => []
  | c :: r => if is_hyphen c then lstrip_hyphen r else l
  end.

Fixpoint rstrip_hyphen (l : list ascii) : list ascii :=
  match l with
  | [] => []
  | c :: r =>
      match rstrip_hyphen r with
      | [] => if is_hyphen c then [] else [c]
      | r' => c :: r'
      end
  end.

Definition strip_hyphen (l : list ascii) : list ascii :=
  rstrip_hyphen (lstrip_hyphen l).

End PyStr.

(** ** [slugify] *)

Module Slug.
Import PyStr.

(** [unicodedata.normalize("NFKD", text)] on ASCII text. *)
Definition normalize_NFKD (l : list ascii) : list ascii := l.

(** [re.sub(r"[^\w\s-]", "", text)] *)
Definition keep_char (c : ascii) : bool :=
  is_word c || is_space c || is_hyphen c.

Definition sub_non_word (l : list ascii) : list ascii :=
  List.filter keep_char l.

(** [re.sub(r"[-\s]+", "-", text)]: every maximal run of hyphens and
    white space becomes one hyphen.  [in_run] tells that the previous
    character belonged to a run. *)
Definition is_sep (c : ascii) : bool := is_hyphen c || is_space c.

Fixpoint sub_sep_runs (in_run : bool) (l : list ascii) : list ascii :=
  match l with
  | [] => []
  | c :: r =>
      if is_sep c
      then (if in_run then sub_sep_runs true r
            else hyphen :: sub_sep_runs true r)
      else c :: sub_sep_runs false r
  end.

(** The text after the first five statements of [slugify]. *)
Definition normalized (text : string) : list ascii :=
  strip_hyphen
    (sub_sep_runs false
       (sub_non_word (lower (normalize_NFKD (chars text))))).

Definition truncated (max_length : Z) (t : list ascii) : list ascii :=
  if Z.of_nat (length t) >? max_length
  then rsplit1_head (slice_to max_length t)
  else t.

Definition slugify (text : string) (max_length : Z) : string :=
  let t := truncated max_length (normalized text) in
  match t with
  | [] => "untitled"
  | _ => of_chars t
  end.

Definition default_max_length : Z := 80.

(** The shape of a slug: lowercase letters, digits, underscores and
    hyphens; no two hyphens in a row; no hyphen at either end. *)
Definition slug_char (c : ascii) : bool :=
  is_hyphen c || is_lower_letter c || is_digit c || (code c =? 95)%N.

Definition first_not_hyphen (l : list ascii) : bool :=
  match l with
  | [] => true
  | c :: _ => negb (is_hyphen c)
  end.

Definition last_not_hyphen (l : list ascii) : bool :=
  match last l with
  | None => true
  | Some c => negb (is_hyphen c)
  end.

Fixpoint no_double_hyphen (l : list ascii) : bool :=
  match l with
  | [] => true
  | c :: r => (negb (is_hyphen c) || first_not_hyphen r) && no_double_hyphen r
  end.

(** The four properties that do not speak of the length. *)
Definition shaped (l : list ascii) : Prop :=
  forallb slug_char l = true /\ no_double_hyphen l = true
  /\ first_not_hyphen l = true /\ last_not_hyphen l = true.


End Slug.


(** ** Candidates, configuration and the registry *)

(** A candidate, the [url_info] dict built by [get_all_urls]. *)
Record url_info := UrlInfo {
  title : string;
  url : string;
  source_file : string;
  source : string
}.

#[global] Instance url_info_eq_dec : EqDecision url_info.
Proof. solve_decision. Defined.

(** [datetime.now().isoformat()]: the instants are abstract ticks. *)
Definition timestamp := nat.

(** A value of [registry["scraped_urls"]]. *)
Record registry_entry := RegistryEntry {
  re_title : string;
  re_source : string;
  re_source_file : string;
  re_scraped_at : timestamp;
  re_archive_path : string
}.

Record registry := Registry {
  scraped_urls : gmap string registry_entry;
  last_updated : option timestamp
}.

Definition empty_registry : registry :=
  {| scraped_urls := ∅; last_updated := None |}.

(** [config["rate_limit"]], and one entry of [config["sites"]], whose
    three keys are each optional. *)
Record rate_limit := RateLimit {
  delay_seconds : Z;
  max_retries : Z;
  timeout_seconds : Z
}.

Record site_override := SiteOverride {
  site_delay_seconds : option Z;
  site_max_retries : option Z;
  site_timeout_seconds : option Z
}.

Record config := Config {
  cfg_rate_limit : rate_limit;
  user_agent : string;
  sites : gmap string site_override
}.

(** ** The domain partitioner *)

Module Partition.
Import PyStr.

(** The characters a URL scheme may hold: letters, digits, [+-.]. *)
Definition is_scheme_char (c : ascii) : bool :=
  is_lower_letter c || is_upper c || is_digit c
  || bool_decide (c = "+"%char) || bool_decide (c = "-"%char)
  || bool_decide (c = "."%char).

Definition is_colon (c : ascii) : bool := bool_decide (c = ":"%char).

(** One of the characters that end the network location. *)
Definition is_netloc_delim (c : ascii) : bool :=
  bool_decide (c = "/"%char) || bool_decide (c = "?"%char)
  || bool_decide (c = "#"%char).

(** [url.find(":")], as the text before the first colon and the text
    after it. *)
Fixpoint split_colon (l : list ascii) : option (list ascii * list ascii) :=
  match l with
  | [] => None
  | c :: r =>
      if is_colon c then Some ([], r)
      else match split_colon r with
           | Some (a, b) => Some (c :: a, b)
           | None => None
           end
  end.

(** The text up to the first of [/?#]. *)
Fixpoint until_delim (l : list ascii) : list ascii :=
  match l with
  | [] => []
  | c :: r => if is_netloc_delim c then [] else c :: until_delim r
  end.

(** [urlsplit]: a leading scheme is split off when the text before the
    first colon is non-empty, starts with a letter and holds scheme
    characters only. *)
Definition strip_scheme (l : list ascii) : list ascii :=
  match split_colon l with
  | Some (c :: a, rest) =>
      if (is_lower_letter c || is_upper c) && forallb is_scheme_char (c :: a)
      then rest else l
  | _ => l
  end.

(** [urlparse(url).netloc]: what follows a [//] after the scheme, up
    to the first of [/?#]; empty without [//].  This follows
    [urllib.parse.urlsplit] on a URL that has no leading blank, no tab
    or newline and no bracket. *)
Definition netloc (u : string) : string :=
  match strip_scheme (chars u) with
  | c1 :: c2 :: rest =>
      if bool_decide (c1 = "/"%char) && bool_decide (c2 = "/"%char)
      then of_chars (until_delim rest)
      else EmptyString
  | _ => EmptyString
  end.

Definition get_domain (u : string) : string :=
  remove_all "www." (netloc u).

(** A Python dict keeps its keys in the order of their first insertion:
    an association list. *)
Fixpoint dict_append (k : string) (v : url_info)
    (d : list (string * list url_info)) : list (string * list url_info) :=
  match d with
  | [] => [(k, [v])]
  | (k', vs) :: d' =>
      if decide (k = k') then (k', vs ++ [v]) :: d'
      else (k', vs) :: dict_append k v d'
  end.

Fixpoint dict_get (k : string) (d : list (string * list url_info))
    : option (list url_info) :=
  match d with
  | [] => None
  | (k', vs) :: d' => if decide (k = k') then Some vs else dict_get k d'
  end.

Definition group_urls_by_domain (urls : list url_info)
    : list (string * list url_info) :=
  foldl (fun grouped url_info =>
           dict_append (get_domain (url url_info)) url_info grouped)
        [] urls.

Definition filter_new_urls (urls : list url_info) (r : registry)
    : list url_info :=
  List.filter (fun u => bool_decide (scraped_urls r !! url u = None)) urls.

(** What the partitioner is to compute: the candidates of one domain in
    the order of the input; a domain without candidates has no entry. *)
Definition domain_queue (d : string) (urls : list url_info) : list url_info :=
  List.filter (fun u => bool_decide (get_domain (url u) = d)) urls.

Definition as_entry (l : list url_info) : option (list url_info) :=
  match l with
  | [] => None
  | _ => Some l
  end.


Definition get_site_config (u : string) (c : config) : rate_limit :=
  let domain := get_domain u in
  let site_config :=
    default (SiteOverride None None None) (sites c !! domain) in
  {| delay_seconds :=
       default (delay_seconds (cfg_rate_limit c))
               (site_delay_seconds site_config);
     max_retries :=
       default (max_retries (cfg_rate_limit c))
               (site_max_retries site_config);
     timeout_seconds :=
       default (timeout_seconds (cfg_rate_limit c))
               (site_timeout_seconds site_config) |}.

End Partition.


(** ** The registry file and [load_registry] *)

Module Json.
Import PyStr.

(** The value [json.load] builds.  A string is its list of code points
    (an escape [\uXXXX] may name any of them), a number keeps its
    literal text, an object keeps its members in document order. *)
#[local] Unset Elimination Schemes.
#[local] Set Elimination Schemes.

























End Json.

Module RegistryFile.
Import Json.





End RegistryFile.


(** ** The archive store *)

Module Archive.

(** The fields [save_archive] writes next to ["url"]. *)
Record metadata := Metadata {
  md_title : string;
  md_source : string;
  md_source_file : string;
  md_scraped_at : timestamp;
  md_archive_path : string
}.

(** What [json.load] makes of a [metadata.json]: it fails, or it gives
    a dict whose ["url"] is a string or is missing ([None] also stands
    for a value that is no string, which equals no URL). *)
Inductive metadata_json :=
  | Unparsable
  | Dict (md_url : option string) (rest : option metadata).

(** An article directory: its [index.html] and its [metadata.json],
    each present or not. *)
Record folder := Folder {
  index_html : option string;
  metadata_file : option metadata_json
}.

(** [<source>/archive/]: directory name to article directory. *)
Abbreviation archive := (gmap string folder).

(** [NEWS_DIR]: the source directories, each with its archive
    directory once that has been made. *)
Abbreviation news_dir := (gmap string (option archive)).

Definition get_existing_archive_url (f : folder) : option string :=
  match metadata_file f with
  | Some (Dict u _) => u
  | _ => None
  end.

(** [f"{slug}-{counter}"] *)
Definition suffixed (slug : string) (counter : nat) : string :=
  slug +:+ "-" +:+ pretty counter.

(** The names [save_archive] considers, in order: the slug, then the
    slug with the suffixes 1, 2, ... *)
Definition nth_name (slug : string) (n : nat) : string :=
  match n with
  | O => slug
  | S _ => suffixed slug n
  end.

(** A directory of that name exists and records another URL, or none. *)
Definition taken_by_other (a : archive) (name u : string) : Prop :=
  exists f, a !! name = Some f /\ get_existing_archive_url f <> Some u.

(** A directory of that name exists and records this URL. *)
Definition holds_url (a : archive) (name u : string) : Prop :=
  exists f, a !! name = Some f /\ get_existing_archive_url f = Some u.

(** The [while] loop of [save_archive], from [counter] on.  It ends
    with [(name, false)] at a directory that records the URL, or with
    [(name, true)] at the first name that is free. *)
Fixpoint probe (fuel : nat) (a : archive) (slug u : string) (counter : nat)
    : option (string * bool) :=
  match fuel with
  | O => None
  | S fuel' =>
      match a !! suffixed slug counter with
      | Some f =>
          if decide (get_existing_archive_url f = Some u)
          then Some (suffixed slug counter, false)
          else probe fuel' a slug u (S counter)
      | None => Some (suffixed slug counter, true)
      end
  end.

(** The directory [save_archive] settles on, and whether it is new.
    The loop runs at most once per existing directory. *)
Definition choose_dir (a : archive) (slug u : string)
    : option (string * bool) :=
  match a !! slug with
  | Some f =>
      if decide (get_existing_archive_url f = Some u)
      then Some (slug, false)
      else probe (S (size a)) a slug u 1
  | None => Some (slug, true)
  end.

(** [article_dir.relative_to(PROJECT_ROOT).as_posix()] *)
Definition archive_path (source_dir name : string) : string :=
  "content/news/" +:+ source_dir +:+ "/archive/" +:+ name.

Definition written (ui : url_info) (html : string) (now : timestamp)
    (source_dir name : string) : folder :=
  {| index_html := Some html;
     metadata_file :=
       Some (Dict (Some (url ui))
               (Some {| md_title := title ui;
                        md_source := PyStr.of_chars
                           (PyStr.lower (PyStr.chars (source ui)));
                        md_source_file := source_file ui;
                        md_scraped_at := now;
                        md_archive_path := archive_path source_dir name |})) |}.

(** [save_archive] once the slug is known, on the archive directory
    [a] of [source_dir]. *)
Definition save_at (slug : string) (ui : url_info) (html : string)
    (now : timestamp) (source_dir : string) (a : archive)
    : option ((string * bool) * archive) :=
  match choose_dir a slug (url ui) with
  | None => None
  | Some (name, false) => Some ((name, false), a)
  | Some (name, true) =>
      Some ((name, true), <[name := written ui html now source_dir name]> a)
  end.

(** [save_archive(url_info, html, source_dir)].  [mkdir] of the
    archive directory fails when the source directory is missing.  The
    outer [None] is the loop out of fuel, which never happens (see
    [save_archive_total]). *)
Definition save_archive (ui : url_info) (html : string) (now : timestamp)
    (source_dir : string) (news : news_dir)
    : option (py_result (string * bool) * news_dir) :=
  match news !! source_dir with
  | None =>
      Some (Raise (Exn FileNotFoundError "archive"), news)
  | Some existing =>
      let a : archive := default ∅ existing in
      match save_at (Slug.slugify (title ui) Slug.default_max_length)
              ui html now source_dir a with
      | None => None
      | Some (r, a') => Some (Ret r, <[source_dir := Some a']> news)
      end
  end.

End Archive.


(** ** The fetcher: [scrape_url_async] and its fallbacks *)

Module Fetch.
Import PyStr Partition.

Inductive wait_cond := DomContentLoaded | NetworkIdle.

(** A browsing context: the one of the domain worker, or the one made
    for the attempt with retry count [retries]. *)
Inductive context := DomainContext | RetryContext (retries : nat).

#[global] Instance wait_cond_eq_dec : EqDecision wait_cond.
Proof. solve_decision. Defined.

#[global] Instance context_eq_dec : EqDecision context.
Proof. solve_decision. Defined.

(** What the fetcher does to the outside world, in order. *)
Inductive event :=
  | EvNewContext (c : context)
  | EvNewPage (c : context) (retries : nat)
  | EvGoto (retries : nat) (u : string) (timeout_ms : Z) (w : wait_cond)
  | EvClosePage (retries : nat)
  | EvCloseContext (c : context)
  | EvRequestsGet (u : string)
  | EvUcStart                         (* uc.Chrome(...) gave a driver *)
  | EvUcGet (u : string)
  | EvUcClose
  | EvBackoff (seconds : Z)           (* asyncio.sleep(2**retries) *)
  | EvPoliteness (delay : Z) (* asyncio.sleep(delay + random.uniform(0, 1)) *)
  | EvAnnotate (source_file u archive_path : string).

#[global] Instance event_eq_dec : EqDecision event.
Proof. solve_decision. Defined.

(** What the outside world answers during one call of
    [scrape_url_async], the recursive calls included; [retries] tells
    the attempts apart.  [None] is a call that succeeds. *)
Record fetch_env := FetchEnv {
  new_context : nat -> option exn;     (* browser.new_context(...) *)
  new_page : nat -> option exn;        (* use_context.new_page() *)
  load_page : nat -> py_result string; (* goto, wait_for_timeout, content *)
  requests_get : py_result string;     (* requests.get, raise_for_status *)
  uc_chrome : option exn;              (* uc.Chrome(...) *)
  uc_load : py_result string           (* driver.get ... get_attribute *)
}.

Record strategy := Strategy {
  wait_until : wait_cond;
  desc : string;
  no_http2 : bool;
  use_requests : bool;
  use_uc_inmedia : bool
}.

Definition default_strategies : list strategy :=
  [ Strategy DomContentLoaded "domcontentloaded" false false false;
    Strategy NetworkIdle "networkidle" false false false;
    Strategy DomContentLoaded "no-http2" true false false;
    Strategy DomContentLoaded "requests-fallback" false true false ].

Definition inmedia_strategies : list strategy :=
  [ Strategy DomContentLoaded "uc-fallback" false false true ].

Definition strategies_for (u : string) : list strategy :=
  if contains "inmediahk.net" u then inmedia_strategies
  else default_strategies.

(** [strategies[min(retries, len(strategies) - 1)]] *)
Definition select_strategy (u : string) (retries : nat) : strategy :=
  let strategies := strategies_for u in
  nth (Nat.min retries (length strategies - 1)) strategies
      (Strategy DomContentLoaded EmptyString false false false).

Definition failed : py_result (string * bool) := Ret (EmptyString, false).

Definition scrape_with_requests (env : fetch_env) (u : string)
    : list event * py_result (string * bool) :=
  ([EvRequestsGet u],
   match requests_get env with
   | Ret text => Ret (text, true)
   | Raise _ => failed
   end).

(** The driver is closed on the way to [return content, True] only. *)
Definition scrape_with_uc_inmedia (env : fetch_env) (u : string)
    : list event * py_result (string * bool) :=
  match uc_chrome env with
  | Some _ => ([], failed)
  | None =>
      match uc_load env with
      | Ret content => ([EvUcStart; EvUcGet u; EvUcClose], Ret (content, true))
      | Raise _ => ([EvUcStart; EvUcGet u], failed)
      end
  end.

Definition min_content_length : nat := 500.

(** [ValueError("Page content too short, likely blocked")] *)
Definition too_short : exn :=
  Exn ValueError "Page content too short, likely blocked".

(** The body of the [try]: the page content, or the exception of
    [goto], [wait_for_timeout], [content] or of the length check. *)
Definition try_body (loaded : py_result string) : py_result string :=
  match loaded with
  | Ret html =>
      if (String.length html <? min_content_length)%nat
      then Raise too_short
      else Ret html
  | Raise e => Raise e
  end.

Definition is_download (e : exn) : bool :=
  contains "Download is starting" (exn_msg e).

(** The block that gives the retry without HTTP/2 a context of its own:
    the context to open the page in, whether it was made here, and the
    events of making it. *)
Record acquired := Acquired {
  acq_context : context;
  acq_created : bool;
  acq_events : list event
}.

Definition acquire_context (env : fetch_env) (s : strategy) (browser : bool)
    (retries : nat) : acquired :=
  if no_http2 s && browser then
    match new_context env retries with
    | None => Acquired (RetryContext retries) true
                       [EvNewContext (RetryContext retries)]
    | Some _ => Acquired DomainContext false []
    end
  else Acquired DomainContext false [].

(** The events up to the [try], and those of the [finally]. *)
Definition page_opened (a : acquired) (retries : nat) (u : string)
    (timeout : Z) (s : strategy) : list event :=
  acq_events a ++
  [EvNewPage (acq_context a) retries; EvGoto retries u timeout (wait_until s)].

Definition page_finally (a : acquired) (retries : nat) : list event :=
  EvClosePage retries ::
  (if acq_created a then [EvCloseContext (acq_context a)] else []).

(** [scrape_url_async(url_info, context, config, retries, browser)];
    [browser] tells whether a browser was passed.  [fuel] bounds the
    depth of the recursion.  The page is opened before the [try]; the
    recursive call is made inside the handler, so the [finally] of an
    attempt runs after the attempts that follow it. *)
Fixpoint scrape_url_async_fuel (fuel : nat) (env : fetch_env)
    (ui : url_info) (cfg : config) (retries : nat) (browser : bool)
    : option (list event * py_result (string * bool)) :=
  match fuel with
  | O => None
  | S fuel' =>
      let u := url ui in
      let site_config := get_site_config u cfg in
      let timeout := timeout_seconds site_config * 1000 in
      let strategy := select_strategy u retries in
      if use_requests strategy then Some (scrape_with_requests env u)
      else if use_uc_inmedia strategy then
        Some (scrape_with_uc_inmedia env u)
      else
        let a := acquire_context env strategy browser retries in
        match new_page env retries with
        | Some e => Some (acq_events a, Raise e)
        | None =>
            let opened := page_opened a retries u timeout strategy in
            let finally := page_finally a retries in
            let retry :=
              if Z.of_nat retries <? max_retries site_config then
                match scrape_url_async_fuel fuel' env ui cfg (S retries)
                        browser with
                | None => None
                | Some (evs, r) =>
                    Some (opened ++ [EvBackoff (2 ^ Z.of_nat retries)]
                            ++ evs ++ finally, r)
                end
              else Some (opened ++ finally, failed) in
            match try_body (load_page env retries) with
            | Ret html => Some (opened ++ finally, Ret (html, true))
            | Raise e =>
                if decide (exn_cls e = PlaywrightTimeout) then retry
                else if is_download e
                then Some (opened ++ finally, failed)
                else retry
            end
        end
  end.

(** The runs of [scrape_url_async] as a relation: [fetches r t res]
    when the call with retry count [r] leaves the trace [t] and ends as
    [res].  One rule per way through the function body. *)
Section fetches.
Variables (env : fetch_env) (ui : url_info) (cfg : config) (browser : bool).

Definition timeout_ms : Z :=
  timeout_seconds (get_site_config (url ui) cfg) * 1000.

Definition strategy_at (r : nat) : strategy := select_strategy (url ui) r.

Definition acquired_at (r : nat) : acquired :=
  acquire_context env (strategy_at r) browser r.

Definition opened_at (r : nat) : list event :=
  page_opened (acquired_at r) r (url ui) timeout_ms (strategy_at r).

Definition finally_at (r : nat) : list event := page_finally (acquired_at r) r.

Definition through_browser (r : nat) : Prop :=
  use_requests (strategy_at r) = false
  /\ use_uc_inmedia (strategy_at r) = false.

(** The handlers retry after [e]. *)
Definition retried (e : exn) : Prop :=
  exn_cls e = PlaywrightTimeout \/ is_download e = false.

Definition may_retry (r : nat) : Prop :=
  Z.of_nat r < max_retries (get_site_config (url ui) cfg).

Inductive fetches : nat -> list event -> py_result (string * bool) -> Prop :=
  | fetches_requests r :
      use_requests (strategy_at r) = true ->
      fetches r (fst (scrape_with_requests env (url ui)))
                (snd (scrape_with_requests env (url ui)))
  | fetches_uc r :
      use_requests (strategy_at r) = false ->
      use_uc_inmedia (strategy_at r) = true ->
      fetches r (fst (scrape_with_uc_inmedia env (url ui)))
                (snd (scrape_with_uc_inmedia env (url ui)))
  | fetches_no_page r e :
      through_browser r -> new_page env r = Some e ->
      fetches r (acq_events (acquired_at r)) (Raise e)
  | fetches_page r html :
      through_browser r -> new_page env r = None ->
      try_body (load_page env r) = Ret html ->
      fetches r (opened_at r ++ finally_at r) (Ret (html, true))
  | fetches_download r e :
      through_browser r -> new_page env r = None ->
      try_body (load_page env r) = Raise e ->
      ~ retried e ->
      fetches r (opened_at r ++ finally_at r) failed
  | fetches_exhausted r e :
      through_browser r -> new_page env r = None ->
      try_body (load_page env r) = Raise e ->
      retried e -> ~ may_retry r ->
      fetches r (opened_at r ++ finally_at r) failed
  | fetches_retry r e evs res :
      through_browser r -> new_page env r = None ->
      try_body (load_page env r) = Raise e ->
      retried e -> may_retry r ->
      fetches (S r) evs res ->
      fetches r (opened_at r ++ [EvBackoff (2 ^ Z.of_nat r)] ++ evs
                 ++ finally_at r) res.

End fetches.


(** A failure that tells of a started download. *)
Definition download_triggered (loaded : py_result string) : Prop :=
  match loaded with
  | Ret _ => False
  | Raise e => exn_cls e <> PlaywrightTimeout /\ is_download e = true
  end.

(** The first attempt on [u] fails and tells of a started download: the
    page load of the first strategy or, on the pinned site, the load
    through the driver. *)
Definition first_attempt_downloads (env : fetch_env) (u : string) : Prop :=
  if contains "inmediahk.net" u
  then uc_chrome env = None /\ download_triggered (uc_load env)
  else new_page env 0 = None /\ download_triggered (load_page env 0).

(** The same world, with another answer to the page load of attempt
    [r]. *)
Definition with_load (env : fetch_env) (r : nat) (o : py_result string)
    : fetch_env :=
  FetchEnv (new_context env) (new_page env)
           (fun k => if decide (k = r) then o else load_page env k)
           (requests_get env) (uc_chrome env) (uc_load env).

(** The fetch that produced the result of a trace went through the
    browser, not through one of the two fallbacks. *)
Definition is_fallback (e : event) : bool :=
  match e with
  | EvRequestsGet _ | EvUcGet _ => true
  | _ => false
  end.

(** The recursion stops at [max_retries] at the latest. *)
Definition fuel_for (cfg : config) (ui : url_info) (retries : nat) : nat :=
  S (Z.to_nat (max_retries (get_site_config (url ui) cfg) - Z.of_nat retries)).

Definition scrape_url_async (env : fetch_env) (ui : url_info)
    (cfg : config) (retries : nat) (browser : bool)
    : option (list event * py_result (string * bool)) :=
  scrape_url_async_fuel (fuel_for cfg ui retries) env ui cfg retries browser.

(** Reading a trace. *)
Definition is_attempt (e : event) : bool :=
  match e with
  | EvGoto _ _ _ _ | EvRequestsGet _ | EvUcGet _ => true
  | _ => false
  end.

Definition attempts (t : list event) : nat :=
  length (List.filter is_attempt t).

Definition backoffs (t : list event) : list Z :=
  omap (fun e => match e with EvBackoff s => Some s | _ => None end) t.

Definition politeness_delays (t : list event) : list Z :=
  omap (fun e => match e with EvPoliteness d => Some d | _ => None end) t.


(** What was opened and not closed again. *)
Definition opens (e : event) : bool :=
  match e with
  | EvNewContext _ | EvNewPage _ _ | EvUcStart => true
  | _ => false
  end.

Definition closes (e : event) : bool :=
  match e with
  | EvCloseContext _ | EvClosePage _ | EvUcClose => true
  | _ => false
  end.

Definition opened_count (t : list event) : nat := length (List.filter opens t).
Definition closed_count (t : list event) : nat := length (List.filter closes t).

Definition released (t : list event) : bool :=
  (opened_count t =? closed_count t)%nat.


End Fetch.


(** ** The scheduler: [scrape_domain_queue] and [run_scraper_async] *)

Module Scheduler.
Import PyStr Partition Archive Fetch.

Definition MAX_CONCURRENT_DOMAINS : nat := 5.

(** The [results] dict of a run. *)
Record results := Results {
  rs_success : Z;
  rs_failed : Z;
  rs_failed_urls : list string
}.

Definition no_results : results := Results 0 0 [].

(** Everything the workers of a run share. *)
Record world := World {
  news : news_dir;                (* the archive directories *)
  reg : registry;                 (* the registry dict *)
  reg_file : option registry;     (* what save_registry wrote last *)
  res : results;
  progress_current : Z;
  clock : timestamp;              (* the next datetime.now() *)
  trace : list event
}.

Definition emit (evs : list event) (w : world) : world :=
  World (news w) (reg w) (reg_file w) (res w) (progress_current w)
        (clock w) (trace w ++ evs).

(** [source_dir = NEWS_DIR / source.lower()], or else the first
    directory whose lowered name is that of the source.  [iterdir]
    lists the directories in the order of [map_to_list]. *)
Definition lower_str (s : string) : string := of_chars (lower (chars s)).

Definition resolve_source_dir (src : string) (n : news_dir) : string :=
  let wanted := lower_str src in
  match n !! wanted with
  | Some _ => wanted
  | None =>
      match List.find (fun d => bool_decide (lower_str d = wanted))
              (map fst (map_to_list n)) with
      | Some d => d
      | None => wanted
      end
  end.

(** [urls.index(url_info)]: the first position of an equal dict. *)
Fixpoint list_index (x : url_info) (l : list url_info) : option nat :=
  match l with
  | [] => None
  | y :: l' => if decide (y = x) then Some O else S <$> list_index x l'
  end.

(** The branch taken after a fetch that succeeded with a non-empty
    page. *)
Definition record_success (update_markdown : bool) (ui : url_info)
    (html : string) (w : world) : option (py_result unit * world) :=
  let source_dir := resolve_source_dir (source ui) (news w) in
  match save_archive ui html (clock w) source_dir (news w) with
  | None => None
  | Some (Raise e, n') =>
      Some (Raise e,
            World n' (reg w) (reg_file w) (res w) (progress_current w)
                  (clock w) (trace w))
  | Some (Ret (name, created_new), n') =>
      let t0 := if created_new then S (clock w) else clock w in
      let entry :=
        {| re_title := title ui;
           re_source := lower_str (source ui);
           re_source_file := source_file ui;
           re_scraped_at := t0;
           re_archive_path := archive_path source_dir name |} in
      let r' :=
        {| scraped_urls := <[url ui := entry]> (scraped_urls (reg w));
           last_updated := Some (S t0) |} in
      Some (Ret tt,
            World n' r' (Some r')
                  (Results (rs_success (res w) + 1) (rs_failed (res w))
                           (rs_failed_urls (res w)))
                  (progress_current w) (S (S t0))
                  (trace w ++
                   if update_markdown
                   then [EvAnnotate (source_file ui) (url ui)
                           (archive_path source_dir name)]
                   else []))
  end.

Definition record_failure (ui : url_info) (w : world) : world :=
  World (news w) (reg w) (reg_file w)
        (Results (rs_success (res w)) (rs_failed (res w) + 1)
                 (rs_failed_urls (res w) ++ [url ui]))
        (progress_current w) (clock w) (trace w).

(** The rate-limit statement that ends the loop body. *)
Definition rate_limit_delay (urls : list url_info) (delay : Z)
    (ui : url_info) (w : world) : py_result unit * world :=
  match list_index ui urls with
  | None => (Raise (Exn ValueError "not in list"), w)
  | Some i =>
      if Z.of_nat i <? Z.of_nat (length urls) - 1
      then (Ret tt, emit [EvPoliteness delay] w)
      else (Ret tt, w)
  end.

(** One turn of the [for] loop of [scrape_domain_queue]. *)
Definition process_url (env : fetch_env) (cfg : config)
    (update_markdown : bool) (urls : list url_info) (delay : Z)
    (ui : url_info) (w : world) : option (py_result unit * world) :=
  let w1 :=
    World (news w) (reg w) (reg_file w) (res w) (progress_current w + 1)
          (clock w) (trace w) in
  match scrape_url_async env ui cfg 0 true with
  | None => None
  | Some (evs, Raise e) => Some (Raise e, emit evs w1)
  | Some (evs, Ret (html, success)) =>
      let w2 := emit evs w1 in
      let handled :=
        if success && negb (bool_decide (html = EmptyString))
        then record_success update_markdown ui html w2
        else Some (Ret tt, record_failure ui w2) in
      match handled with
      | None => None
      | Some (Raise e, w3) => Some (Raise e, w3)
      | Some (Ret _, w3) => Some (rate_limit_delay urls delay ui w3)
      end
  end.

Fixpoint queue_loop (envs : nat -> fetch_env) (cfg : config)
    (update_markdown : bool) (urls : list url_info) (delay : Z)
    (i : nat) (rest : list url_info) (w : world)
    : option (py_result unit * world) :=
  match rest with
  | [] => Some (Ret tt, w)
  | ui :: rest' =>
      match process_url (envs i) cfg update_markdown urls delay ui w with
      | None => None
      | Some (Raise e, w') => Some (Raise e, w')
      | Some (Ret _, w') =>
          queue_loop envs cfg update_markdown urls delay (S i) rest' w'
      end
  end.

(** [scrape_domain_queue]: [envs i] answers the fetch of the URL at
    position [i] of the queue. *)
Definition scrape_domain_queue (envs : nat -> fetch_env) (cfg : config)
    (update_markdown : bool) (urls : list url_info) (w : world)
    : option (py_result unit * world) :=
  let w0 := emit [EvNewContext DomainContext] w in
  match urls with
  | [] => Some (Raise (Exn IndexError "list index out of range"), w0)
  | first :: _ =>
      let delay := delay_seconds (get_site_config (url first) cfg) in
      match queue_loop envs cfg update_markdown urls delay 0 urls w0 with
      | None => None
      | Some (Raise e, w') => Some (Raise e, w')
      | Some (Ret _, w') =>
          Some (Ret tt, emit [EvCloseContext DomainContext] w')
      end
  end.

(** What [run_scraper_async] decides before it starts any worker. *)
Inductive plan :=
  | NothingToDo (r : results)
  | Dispatch (new_urls : list url_info)
             (domains : list (string * list url_info)).

Definition apply_limit (limit : option Z) (l : list url_info)
    : list url_info :=
  match limit with
  | Some n => if n =? 0 then l else slice_to n l
  | None => l
  end.

Definition plan_run (dry_run : bool) (limit : option Z)
    (all_urls : list url_info) (r : registry) : plan :=
  let new_urls := apply_limit limit (filter_new_urls all_urls r) in
  if dry_run then NothingToDo no_results
  else match new_urls with
       | [] => NothingToDo no_results
       | _ => Dispatch new_urls (group_urls_by_domain new_urls)
       end.

(** The domain workers under [asyncio.gather].  A worker waits for the
    semaphore, then handles its queue one URL at a time; between two of
    its awaits nothing else runs, so a run is an interleaving of whole
    loop turns. *)
Inductive phase :=
  | Waiting
  | Running (next : nat)
  | Closed
  | Crashed (e : exn).

Record worker := Worker {
  wk_domain : string;
  wk_urls : list url_info;
  wk_phase : phase
}.

Definition is_running (k : worker) : bool :=
  match wk_phase k with Running _ => true | _ => false end.

Definition active (ws : list worker) : nat :=
  length (List.filter is_running ws).

(** One move of worker [k], the others being [others]. *)
Definition worker_step (envs : string -> nat -> fetch_env) (cfg : config)
    (update_markdown : bool) (others : list worker) (k : worker)
    (w : world) : option (worker * world) :=
  let set p := Worker (wk_domain k) (wk_urls k) p in
  match wk_phase k with
  | Waiting =>
      if (active others <? MAX_CONCURRENT_DOMAINS)%nat then
        match wk_urls k with
        | [] => Some (set (Crashed (Exn IndexError "list index out of range")),
                      emit [EvNewContext DomainContext] w)
        | _ => Some (set (Running 0), emit [EvNewContext DomainContext] w)
        end
      else Some (k, w)
  | Running i =>
      match wk_urls k !! i, wk_urls k with
      | Some ui, first :: _ =>
          let delay := delay_seconds (get_site_config (url first) cfg) in
          match process_url (envs (wk_domain k) i) cfg update_markdown
                  (wk_urls k) delay ui w with
          | None => None
          | Some (Raise e, w') => Some (set (Crashed e), w')
          | Some (Ret _, w') => Some (set (Running (S i)), w')
          end
      | _, _ => Some (set Closed, emit [EvCloseContext DomainContext] w)
      end
  | Closed | Crashed _ => Some (k, w)
  end.

(** The worker of [domain] moves. *)
Fixpoint step_domain (envs : string -> nat -> fetch_env) (cfg : config)
    (update_markdown : bool) (domain : string) (before ws : list worker)
    (w : world) : option (list worker * world) :=
  match ws with
  | [] => Some (before, w)
  | k :: ws' =>
      if decide (wk_domain k = domain) then
        match worker_step envs cfg update_markdown (before ++ ws') k w with
        | None => None
        | Some (k', w') => Some (before ++ k' :: ws', w')
        end
      else step_domain envs cfg update_markdown domain (before ++ [k]) ws' w
  end.

(** A schedule names the worker that moves next, again and again. *)
Fixpoint run_schedule (envs : string -> nat -> fetch_env) (cfg : config)
    (update_markdown : bool) (schedule : list string) (ws : list worker)
    (w : world) : option (list worker * world) :=
  match schedule with
  | [] => Some (ws, w)
  | d :: schedule' =>
      match step_domain envs cfg update_markdown d [] ws w with
      | None => None
      | Some (ws', w') =>
          run_schedule envs cfg update_markdown schedule' ws' w'
      end
  end.

Fixpoint first_crash (ws : list worker) : option exn :=
  match ws with
  | [] => None
  | k :: ws' =>
      match wk_phase k with
      | Crashed e => Some e
      | _ => first_crash ws'
      end
  end.

Definition is_closed (k : worker) : bool :=
  match wk_phase k with Closed => true | _ => false end.

Definition start_workers (domains : list (string * list url_info))
    : list worker :=
  map (fun d => Worker (fst d) (snd d) Waiting) domains.

Inductive run_outcome :=
  | RunReturns (r : results) (w : world)
  | RunRaises (e : exn) (w : world)
  | RunPending (w : world).       (* the schedule ends too early *)

(** [run_scraper_async], from the values its three loads return: the
    configuration, the registry (in [w]) and the candidates.  The
    exception of a worker leaves [gather] and the run. *)
Definition run_scraper_async (envs : string -> nat -> fetch_env)
    (cfg : config) (dry_run : bool) (limit : option Z)
    (update_markdown : bool) (schedule : list string)
    (all_urls : list url_info) (w : world) : option run_outcome :=
  match plan_run dry_run limit all_urls (reg w) with
  | NothingToDo r => Some (RunReturns r w)
  | Dispatch new_urls domains =>
      let w0 :=
        World (news w) (reg w) (reg_file w) no_results 0 (clock w)
              (trace w) in
      match run_schedule envs cfg update_markdown schedule
              (start_workers domains) w0 with
      | None => None
      | Some (ws, w') =>
          Some match first_crash ws with
               | Some e => RunRaises e w'
               | None =>
                   if forallb is_closed ws then RunReturns (res w') w'
                   else RunPending w'
               end
      end
  end.

(** A second run is a new process: it reads the registry back from the
    file (an empty registry when there is none) and starts with fresh
    counters. *)
Definition loaded (f : option registry) : registry :=
  default empty_registry f.

Definition restart (w : world) : world :=
  World (news w) (loaded (reg_file w)) (reg_file w) no_results 0 (clock w) [].

(** The registry in memory is the one in the file. *)
Definition persisted (w : world) : Prop := loaded (reg_file w) = reg w.

Definition recorded (w : world) (u : url_info) : Prop :=
  is_Some (scraped_urls (reg w) !! url u).

(** How many URLs of its queue a worker has handled. *)
Definition handled (k : worker) : nat :=
  match wk_phase k with
  | Running i => i
  | Closed => length (wk_urls k)
  | Waiting | Crashed _ => 0
  end.

(** The URLs a worker has handled are recorded. *)
Definition handled_recorded (w : world) (k : worker) : Prop :=
  forall j u, (j < handled k)%nat -> wk_urls k !! j = Some u -> recorded w u.

(** From [w] to [w']: no URL leaves the registry, no failure is
    forgotten. *)
Definition grows (w w' : world) : Prop :=
  (forall u, recorded w u -> recorded w' u)
  /\ rs_failed (res w) <= rs_failed (res w')
  /\ (persisted w -> persisted w').

(** The directories of all archives, and the URLs of the registry. *)
Definition archive_dirs (n : news_dir) : list (string * string) :=
  d ← map_to_list n;
  name ← (map fst (map_to_list (default ∅ (snd d))));
  [(fst d, name)].

End Scheduler.


(** ** Sample data *)

Module Samples.
Import Archive Fetch Scheduler.

Definition foo_x : url_info :=
  UrlInfo "Foo" "https://a.example/x" "content/news/bbc/README.md" "BBC".

Definition foo_y : url_info :=
  UrlInfo "Foo" "https://a.example/y" "content/news/bbc/README.md" "BBC".

Definition inmedia_page : url_info :=
  UrlInfo "Report" "https://www.inmediahk.net/node/1"
          "content/news/inmedia/README.md" "inmedia".

(** A configuration whose every domain has [max_retries]. *)
Definition cfg_retries (max_retries : Z) : config :=
  Config (RateLimit 3 max_retries 60) "Mozilla/5.0" ∅.

Definition timeout_error : exn :=
  Exn PlaywrightTimeout "Timeout 60000ms exceeded.".

Definition connection_error : exn :=
  Exn OtherException "net::ERR_CONNECTION_RESET".

Definition download_error : exn :=
  Exn PlaywrightError "Page.goto: Download is starting".

(** Every page load and every fallback ends as [o]; contexts, pages
    and the driver open without error. *)
Definition env_always (o : py_result string) : fetch_env :=
  FetchEnv (fun _ => None) (fun _ => None) (fun _ => o) o None o.

(** The browser times out on every load, the plain GET answers with a
    five-character body. *)
Definition env_short_fallback : fetch_env :=
  FetchEnv (fun _ => None) (fun _ => None) (fun _ => Raise timeout_error)
           (Ret "<!-->") None (Raise connection_error).

(** The attempt with retry count 2 gets its own context, and then no
    page. *)
Definition env_no_page : fetch_env :=
  FetchEnv (fun _ => None)
           (fun r => if decide (r = 2%nat) then Some connection_error else None)
           (fun _ => Raise timeout_error) (Raise connection_error) None
           (Raise connection_error).

(** A page of 600 characters. *)
Definition long_page : string := PyStr.of_chars (replicate 600 "x"%char).

(** The news directory with one source and no archive yet. *)
Definition news_bbc : news_dir := {[ "bbc" := None ]}.

Definition fresh_world : world :=
  World news_bbc empty_registry None no_results 0 0%nat [].

End Samples.

(** ** The strategy table, read as a schedule of attempts *)

Module FetchChain.
Import PyStr Partition Fetch.






(** The content comes from the outside world: a page load, the plain
    GET or the driver. *)
Definition fetched_content (env : fetch_env) (html : string) : Prop :=
  (exists r, load_page env r = Ret html)
  \/ requests_get env = Ret html
  \/ uc_load env = Ret html.

End FetchChain.

(** ** Finding an archive directory by URL *)

Module ArchiveLookup.
Import Archive.

(** [find_archive_dir_for_url(source_dir, url)]: the first directory,
    in the order [glob] lists them, whose metadata records the URL.
    [glob("*/metadata.json")] lists the directories that have a
    metadata file, here in the order of [map_to_list]; a metadata file
    that does not parse is passed over.  A metadata file that parses
    to something other than an object is outside [metadata_json]. *)
Definition find_archive_dir_for_url (source_dir u : string) (news : news_dir)
    : option string :=
  match news !! source_dir with
  | Some (Some a) =>
      fst <$> List.find
                (fun nf =>
                   bool_decide (get_existing_archive_url (snd nf) = Some u))
                (map_to_list a)
  | _ => None
  end.

(** No directory of the archive is removed or changed. *)
Definition keeps_directories (a a' : archive) : Prop :=
  forall name f, a !! name = Some f -> a' !! name = Some f.

End ArchiveLookup.

(** * The books of a run

    What a run has handled, as its counters, its registry and its list
    of failed URLs show it. *)

Module RunLedger.
Import Archive Scheduler.

(** The URL is in the registry, or in the list of failed URLs. *)
Definition accounted (w : world) (u : url_info) : Prop :=
  recorded w u \/ In (url u) (rs_failed_urls (res w)).

(** The URLs all workers together have handled. *)
Definition handled_total (ws : list worker) : Z :=
  foldr (fun k n => Z.of_nat (handled k) + n) 0 ws.


(** What the books show of one worker. *)
Definition worker_booked (w : world) (k : worker) : Prop :=
  (handled k <= length (wk_urls k))%nat
  /\ forall j u, (j < handled k)%nat -> wk_urls k !! j = Some u ->
                 accounted w u.

(** What the books show of a run in which no worker has crashed. *)
Definition booked (ws : list worker) (w : world) : Prop :=
  first_crash ws = None ->
  rs_success (res w) + rs_failed (res w) = handled_total ws
  /\ progress_current w = handled_total ws
  /\ Z.of_nat (length (rs_failed_urls (res w))) = rs_failed (res w)
  /\ Forall (worker_booked w) ws.


End RunLedger.

(** * The buttons of a markdown line *)

Module Buttons.
Import PyStr.

(** [s.replace(old, new)] for a non-empty [old]: scan from the left,
    replace each non-overlapping occurrence.  The fuel is the length of
    the text, which every scan position stays below. *)
Fixpoint replace_fuel (fuel : nat) (old new s : list ascii) : list ascii :=
  match fuel with
  | O => s
  | S fuel' =>
      match s with
      | [] => []
      | c :: s' =>
          if starts_with old s
          then new ++ replace_fuel fuel' old new (drop (length old) s)
          else c :: replace_fuel fuel' old new s'
      end
  end.

Definition replace (old new s : string) : string :=
  of_chars (replace_fuel (length (chars s)) (chars old) (chars new) (chars s)).











End Buttons.

(** * Properties *)

(** ** Facts about the string operations *)

Section str_facts.
Import PyStr.

Lemma chars_of_chars l : chars (of_chars l) = l.
Proof. apply list_ascii_of_string_of_list_ascii. Qed.



Lemma of_chars_nil_inv l : of_chars l = EmptyString -> l = [].
Proof. by destruct l. Qed.

Lemma is_hyphen_eq c : is_hyphen c = true -> c = hyphen.
Proof.
  unfold is_hyphen, code. intros H%N.eqb_eq.
  rewrite <- (ascii_N_embedding c), H. reflexivity.
Qed.

Lemma slice_to_prefix {A} n (l : list A) : exists q, l = slice_to n l ++ q.
Proof.
  unfold slice_to. destruct (0 <=? n); eexists; symmetry; apply take_drop.
Qed.

Lemma slice_to_length {A} n (l : list A) :
  0 <= n -> Z.of_nat (length (slice_to n l)) <= n.
Proof.
  intros Hn. unfold slice_to.
  destruct (Z.leb_spec 0 n); [|lia]. rewrite length_take. lia.
Qed.

Lemma before_last_hyphen_prefix l p :
  before_last_hyphen l = Some p -> exists q, l = p ++ q.
Proof.
  revert p. induction l as [|c r IH]; intros p; simpl; [done|].
  destruct (before_last_hyphen r) as [p'|].
  - intros [= <-]. destruct (IH p' eq_refl) as [q ->]. by exists q.
  - destruct (is_hyphen c); [|done]. intros [= <-]. by eexists.
Qed.

Lemma rsplit1_head_prefix l : exists q, l = rsplit1_head l ++ q.
Proof.
  unfold rsplit1_head. destruct (before_last_hyphen l) as [p|] eqn:E; simpl.
  - by apply before_last_hyphen_prefix.
  - exists []. by rewrite app_nil_r.
Qed.

Lemma rstrip_hyphen_prefix l : exists q, l = rstrip_hyphen l ++ q.
Proof.
  induction l as [|c r [q IH]]; simpl; [by exists []|].
  destruct (rstrip_hyphen r) as [|x r'] eqn:E.
  - destruct (is_hyphen c); [by eexists | by exists r].
  - exists q. simpl in *. by rewrite <- IH.
Qed.

Lemma lstrip_hyphen_suffix l : exists p, l = p ++ lstrip_hyphen l.
Proof.
  induction l as [|c r [p IH]]; simpl; [by exists []|].
  destruct (is_hyphen c); [|by exists []].
  exists (c :: p). simpl. by rewrite <- IH.
Qed.

End str_facts.

(** ** [slugify] *)

Section slug_facts.
Import PyStr Slug.

Lemma lower_char_not_upper c : is_upper (lower_char c) = false.
Proof. destruct c as [[] [] [] [] [] [] [] []]; vm_compute; reflexivity. Qed.

(** A character that survives both substitutions unchanged is a slug
    character other than the hyphen. *)
Lemma kept_char_is_slug_char c :
  keep_char c = true -> is_sep c = false -> is_upper c = false ->
  slug_char c = true.
Proof.
  destruct c as [[] [] [] [] [] [] [] []]; vm_compute; congruence.
Qed.

Lemma slug_char_hyphen : slug_char hyphen = true.
Proof. reflexivity. Qed.

Lemma not_sep_not_hyphen c : is_sep c = false -> is_hyphen c = false.
Proof. unfold is_sep. by intros [? ?]%orb_false_iff. Qed.

(** *** Properties kept by the parts of a text *)

Lemma forallb_app_l {A} (P : A -> bool) p q :
  forallb P (p ++ q) = true -> forallb P p = true.
Proof. rewrite forallb_app. by intros [? ?]%andb_true_iff. Qed.

Lemma forallb_app_r {A} (P : A -> bool) p q :
  forallb P (p ++ q) = true -> forallb P q = true.
Proof. rewrite forallb_app. by intros [? ?]%andb_true_iff. Qed.

Lemma first_not_hyphen_app_l p q :
  first_not_hyphen (p ++ q) = true -> first_not_hyphen p = true.
Proof. by destruct p. Qed.

Lemma no_double_hyphen_app_r p q :
  no_double_hyphen (p ++ q) = true -> no_double_hyphen q = true.
Proof.
  induction p as [|c p IH]; simpl; [done|].
  intros [_ H]%andb_true_iff. auto.
Qed.

Lemma no_double_hyphen_app_l p q :
  no_double_hyphen (p ++ q) = true -> no_double_hyphen p = true.
Proof.
  induction p as [|c p IH]; simpl; [done|].
  intros [H1 H2]%andb_true_iff. rewrite (IH H2), andb_true_r.
  destruct (is_hyphen c); [|done]. simpl in *.
  by apply first_not_hyphen_app_l in H1.
Qed.

(** *** The substitutions *)

Lemma sub_non_word_chars l :
  forallb (fun c => keep_char c && negb (is_upper c))
          (sub_non_word (lower (normalize_NFKD l))) = true.
Proof.
  unfold sub_non_word, lower, normalize_NFKD.
  induction l as [|c l IH]; simpl; [done|].
  destruct (keep_char (lower_char c)) eqn:E; simpl; [|done].
  by rewrite E, lower_char_not_upper, IH.
Qed.

Lemma sub_sep_runs_chars b l :
  forallb (fun c => keep_char c && negb (is_upper c)) l = true ->
  forallb slug_char (sub_sep_runs b l) = true.
Proof.
  revert b. induction l as [|c l IH]; intros b; simpl; [done|].
  intros [[Hk Hu%negb_true_iff]%andb_true_iff Hl]%andb_true_iff.
  destruct (is_sep c) eqn:Hs.
  - destruct b; simpl; auto.
  - simpl. rewrite (kept_char_is_slug_char c Hk Hs Hu). simpl. auto.
Qed.

Lemma sub_sep_runs_single b l :
  no_double_hyphen (sub_sep_runs b l) = true
  /\ (b = true -> first_not_hyphen (sub_sep_runs b l) = true).
Proof.
  revert b. induction l as [|c l IH]; intros b; simpl; [done|].
  destruct (is_sep c) eqn:Hs.
  - destruct (IH true) as [Hn Hf]. destruct b; simpl.
    + auto.
    + split; [|done]. by rewrite Hn, (Hf eq_refl).
  - destruct (IH false) as [Hn _]. simpl.
    rewrite (not_sep_not_hyphen c Hs), Hn. done.
Qed.

(** *** Stripping *)

Lemma lstrip_hyphen_first l : first_not_hyphen (lstrip_hyphen l) = true.
Proof.
  induction l as [|c l IH]; simpl; [done|].
  destruct (is_hyphen c) eqn:E; [done|]. simpl. by rewrite E.
Qed.

Lemma rstrip_hyphen_last l : last_not_hyphen (rstrip_hyphen l) = true.
Proof.
  unfold last_not_hyphen.
  induction l as [|c l IH]; simpl; [done|].
  destruct (rstrip_hyphen l) as [|x r'] eqn:E.
  - destruct (is_hyphen c) eqn:Hc; simpl; [done | by rewrite Hc].
  - exact IH.
Qed.

Lemma rstrip_hyphen_first l :
  first_not_hyphen l = true -> first_not_hyphen (rstrip_hyphen l) = true.
Proof.
  destruct (rstrip_hyphen_prefix l) as [q Hq]. intros H.
  rewrite Hq in H. by apply first_not_hyphen_app_l in H.
Qed.

(** *** Cutting at the last hyphen *)

Lemma before_last_hyphen_none l :
  before_last_hyphen l = None -> forallb (fun c => negb (is_hyphen c)) l = true.
Proof.
  induction l as [|c l IH]; simpl; [done|].
  destruct (before_last_hyphen l); [done|].
  destruct (is_hyphen c); [done|]. auto.
Qed.

Lemma before_last_hyphen_nil l :
  before_last_hyphen l = Some [] -> first_not_hyphen l = false.
Proof.
  destruct l as [|c l]; simpl; [done|].
  destruct (before_last_hyphen l); [done|].
  by destruct (is_hyphen c).
Qed.

Lemma no_hyphen_last l :
  forallb (fun c => negb (is_hyphen c)) l = true -> last_not_hyphen l = true.
Proof.
  unfold last_not_hyphen. induction l as [|c l IH]; simpl; [done|].
  intros [Hc Hl]%andb_true_iff. destruct l as [|x l']; [done|]. auto.
Qed.

Lemma before_last_hyphen_last l p :
  no_double_hyphen l = true -> before_last_hyphen l = Some p ->
  last_not_hyphen p = true.
Proof.
  unfold last_not_hyphen.
  revert p. induction l as [|c l IH]; intros p; simpl; [done|].
  intros [Hc Hl]%andb_true_iff.
  destruct (before_last_hyphen l) as [p'|] eqn:E.
  - intros [= <-]. destruct p' as [|x p''].
    + apply before_last_hyphen_nil in E. rewrite E, orb_false_r in Hc.
      simpl. done.
    + apply (IH _ Hl eq_refl).
  - destruct (is_hyphen c); [|done]. by intros [= <-].
Qed.

Lemma rsplit1_head_last l :
  no_double_hyphen l = true -> last_not_hyphen (rsplit1_head l) = true.
Proof.
  intros Hn. unfold rsplit1_head.
  destruct (before_last_hyphen l) as [p|] eqn:E; simpl.
  - by eapply before_last_hyphen_last.
  - by apply no_hyphen_last, before_last_hyphen_none.
Qed.

End slug_facts.

Section slugify_shape.
Import PyStr Slug.

Lemma normalized_shaped text : shaped (normalized text).
Proof.
  unfold normalized, strip_hyphen.
  set (u := sub_sep_runs false _).
  assert (Hc : forallb slug_char u = true)
    by apply sub_sep_runs_chars, sub_non_word_chars.
  assert (Hn : no_double_hyphen u = true) by apply sub_sep_runs_single.
  destruct (lstrip_hyphen_suffix u) as [p Hp].
  destruct (rstrip_hyphen_prefix (lstrip_hyphen u)) as [q Hq].
  rewrite Hp in Hc, Hn.
  apply forallb_app_r in Hc. apply no_double_hyphen_app_r in Hn.
  rewrite Hq in Hc, Hn.
  apply forallb_app_l in Hc. apply no_double_hyphen_app_l in Hn.
  repeat split; [done | done | |].
  - apply rstrip_hyphen_first, lstrip_hyphen_first.
  - apply rstrip_hyphen_last.
Qed.

Lemma truncated_shaped max_length t : shaped t -> shaped (truncated max_length t).
Proof.
  intros (Hc & Hn & Hf & Hl). unfold truncated.
  destruct (Z.of_nat (length t) >? max_length); [|done].
  destruct (slice_to_prefix max_length t) as [q Hq].
  destruct (rsplit1_head_prefix (slice_to max_length t)) as [q' Hq'].
  rewrite Hq in Hc, Hn, Hf.
  apply forallb_app_l in Hc. apply no_double_hyphen_app_l in Hn.
  apply first_not_hyphen_app_l in Hf.
  repeat split.
  - rewrite Hq' in Hc. by apply forallb_app_l in Hc.
  - rewrite Hq' in Hn. by apply no_double_hyphen_app_l in Hn.
  - rewrite Hq' in Hf. by apply first_not_hyphen_app_l in Hf.
  - by apply rsplit1_head_last.
Qed.

Lemma truncated_length max_length t :
  0 <= max_length -> Z.of_nat (length (truncated max_length t)) <= max_length.
Proof.
  intros H. unfold truncated.
  destruct (Z.gtb_spec (Z.of_nat (length t)) max_length) as [Hgt|Hle]; [|done].
  destruct (rsplit1_head_prefix (slice_to max_length t)) as [q Hq].
  pose proof (slice_to_length max_length t H) as Hlen.
  rewrite Hq, length_app in Hlen. lia.
Qed.





End slugify_shape.

(** ** The domain partitioner *)

Section partition_facts.
Import PyStr Partition.











Lemma dict_get_append d k v acc :
  dict_get d (dict_append k v acc)
  = if decide (d = k) then Some (default [] (dict_get d acc) ++ [v])
    else dict_get d acc.
Proof.
  induction acc as [|[k' vs] acc IH]; simpl.
  - by destruct (decide (d = k)).
  - destruct (decide (k = k')) as [->|Hk]; simpl.
    + destruct (decide (d = k')); [done|]. done.
    + destruct (decide (d = k')) as [->|Hd].
      * by destruct (decide (k' = k)).
      * exact IH.
Qed.

Lemma group_fold d urls acc :
  dict_get d
    (foldl (fun grouped u => dict_append (get_domain (url u)) u grouped)
           acc urls)
  = match dict_get d acc with
    | Some vs => Some (vs ++ domain_queue d urls)
    | None => as_entry (domain_queue d urls)
    end.
Proof.
  revert acc. induction urls as [|u urls IH]; intros acc; simpl.
  - destruct (dict_get d acc); [by rewrite app_nil_r | done].
  - rewrite IH, dict_get_append. unfold domain_queue. simpl.
    destruct (decide (d = get_domain (url u))) as [->|Hd].
    + rewrite bool_decide_eq_true_2 by done.
      destruct (dict_get _ acc); simpl; by rewrite <- ?app_assoc.
    + by rewrite bool_decide_eq_false_2.
Qed.

(** Each domain gets its candidates, in the order of the input. *)
Lemma group_urls_by_domain_get urls d :
  dict_get d (group_urls_by_domain urls) = as_entry (domain_queue d urls).
Proof. unfold group_urls_by_domain. by rewrite group_fold. Qed.




End partition_facts.

(** ** The registry file *)

Section registry_file_facts.
Import Json RegistryFile.




End registry_file_facts.

(** ** The archive store *)

Section archive_facts.
Import Archive.

#[local] Instance suffixed_inj slug : Inj (=) (=) (suffixed slug).
Proof.
  intros m n H. unfold suffixed in H.
  apply (inj (String.app slug)) in H.
  apply (inj (String.app "-")) in H.
  by apply (inj pretty) in H.
Qed.

Lemma string_length_append a b :
  String.length (a +:+ b) = (String.length a + String.length b)%nat.
Proof. induction a as [|c a IH]; simpl; [done | by rewrite IH]. Qed.

Lemma suffixed_ne_slug slug n : suffixed slug n <> slug.
Proof.
  unfold suffixed. intros H.
  assert (Hlen : String.length (slug +:+ "-" +:+ pretty n) = String.length slug)
    by (by rewrite H).
  rewrite !string_length_append in Hlen. simpl in Hlen. lia.
Qed.

(** The loop out of fuel has seen a directory at every name it tried. *)
Lemma probe_none fuel (a : archive) slug u c :
  probe fuel a slug u c = None ->
  forall k, (c <= k < c + fuel)%nat -> is_Some (a !! suffixed slug k).
Proof.
  revert c. induction fuel as [|fuel IH]; intros c H k Hk; [lia|].
  simpl in H.
  destruct (a !! suffixed slug c) as [f|] eqn:E; [|done].
  destruct (decide _); [done|].
  destruct (decide (k = c)) as [->|Hne]; [by rewrite E|].
  apply (IH (S c) H). lia.
Qed.

(** There are no more names in use than directories. *)
Lemma probe_total (a : archive) slug u c :
  exists r, probe (S (size a)) a slug u c = Some r.
Proof.
  destruct (probe (S (size a)) a slug u c) as [r|] eqn:E; [by exists r|].
  exfalso.
  pose proof (probe_none _ _ _ _ _ E) as Hall.
  set (names := suffixed slug <$> seq c (S (size a))).
  assert (Hsub : (list_to_set names : gset string) ⊆ dom a).
  { intros x Hx. apply elem_of_list_to_set in Hx.
    apply list_elem_of_fmap in Hx as (k & -> & Hk).
    apply elem_of_seq in Hk. apply elem_of_dom, Hall. lia. }
  apply subseteq_size in Hsub.
  rewrite size_list_to_set, size_dom in Hsub.
  - unfold names in Hsub. rewrite length_fmap, length_seq in Hsub. lia.
  - apply NoDup_fmap_2; [apply _ | apply NoDup_seq].
Qed.

Lemma probe_spec fuel (a : archive) slug u c name created :
  probe fuel a slug u c = Some (name, created) ->
  exists n, (c <= n)%nat /\ name = suffixed slug n
    /\ (forall k, (c <= k < n)%nat -> taken_by_other a (suffixed slug k) u)
    /\ (if created then a !! name = None else holds_url a name u).
Proof.
  revert c. induction fuel as [|fuel IH]; intros c H; [done|].
  simpl in H.
  destruct (a !! suffixed slug c) as [f|] eqn:E.
  - destruct (decide (get_existing_archive_url f = Some u)) as [Hu|Hu].
    + injection H as <- <-. exists c.
      split; [lia|]. split; [done|]. split; [intros; lia|]. by exists f.
    + destruct (IH _ H) as (n & Hn & -> & Hbefore & Hlast).
      exists n. split; [lia|]. split; [done|]. split; [|done].
      intros k Hk. destruct (decide (k = c)) as [->|?].
      * by exists f.
      * apply Hbefore. lia.
  - injection H as <- <-. exists c.
    split; [lia|]. split; [done|]. split; [intros; lia | done].
Qed.

(** [choose_dir] stops at the first name, of [slug], [slug-1],
    [slug-2], ..., that is free or that records the URL. *)
Lemma choose_dir_spec (a : archive) slug u :
  exists n created,
    choose_dir a slug u = Some (nth_name slug n, created)
    /\ (forall k, (k < n)%nat -> taken_by_other a (nth_name slug k) u)
    /\ (if created then a !! nth_name slug n = None
        else holds_url a (nth_name slug n) u).
Proof.
  unfold choose_dir.
  destruct (a !! slug) as [f|] eqn:E.
  - destruct (decide (get_existing_archive_url f = Some u)) as [Hu|Hu].
    + exists 0%nat, false. split; [done|]. split; [intros; lia|]. by exists f.
    + destruct (probe_total a slug u 1) as [[name created] Hp].
      destruct (probe_spec _ _ _ _ _ _ _ Hp) as (n & Hn & -> & Hbefore & Hlast).
      exists n, created. destruct n as [|n]; [lia|].
      split; [done|]. split; [|done].
      intros [|k] Hk; [by exists f | apply Hbefore; lia].
  - exists 0%nat, true. split; [done|]. split; [intros; lia | done].
Qed.

End archive_facts.

Section save_archive_facts.
Import Slug Archive.

Lemma save_at_spec slug ui html now dir (a : archive) :
  exists n created a',
    save_at slug ui html now dir a = Some ((nth_name slug n, created), a')
    /\ (forall k, (k < n)%nat -> taken_by_other a (nth_name slug k) (url ui))
    /\ (if created
        then a !! nth_name slug n = None
             /\ a' = <[nth_name slug n :=
                         written ui html now dir (nth_name slug n)]> a
        else holds_url a (nth_name slug n) (url ui) /\ a' = a).
Proof.
  destruct (choose_dir_spec a slug (url ui)) as (n & created & Hc & Hbefore & Hlast).
  unfold save_at. rewrite Hc.
  exists n, created. destruct created; eexists; (split; [reflexivity|]); auto.
Qed.

(** C3.  [save_archive] settles on the first of the names [slug],
    [slug-1], [slug-2], ... that is free or whose metadata records the
    URL of the candidate.  At a recorded URL it returns that directory
    with [created = false] and writes nothing; at a free name it makes
    the directory, with the URL of the candidate in its metadata.  So
    two candidates with one title and two URLs, saved where neither
    [slug] nor [slug-1] is in use, get the directories [slug] and
    [slug-1], each recording the URL of its candidate. *)
Theorem save_archive_first_match_or_free :
  (forall ui html now dir (news : news_dir) oa,
     news !! dir = Some oa ->
     let a : archive := default ∅ oa in
     let slug := slugify (title ui) default_max_length in
     exists n created news',
       save_archive ui html now dir news
       = Some (Ret (nth_name slug n, created), news')
       /\ (forall k, (k < n)%nat ->
             taken_by_other a (nth_name slug k) (url ui))
       /\ (if created
           then a !! nth_name slug n = None
                /\ news' = <[dir := Some (<[nth_name slug n :=
                     written ui html now dir (nth_name slug n)]> a)]> news
           else holds_url a (nth_name slug n) (url ui) /\ news' = news))
  /\ (forall c1 c2 html1 html2 now1 now2 dir (news : news_dir) oa,
     news !! dir = Some oa ->
     let a : archive := default ∅ oa in
     let slug := slugify (title c1) default_max_length in
     title c1 = title c2 -> url c1 <> url c2 ->
     a !! slug = None -> a !! suffixed slug 1 = None ->
     exists news1 news2 (a2 : archive),
       save_archive c1 html1 now1 dir news = Some (Ret (slug, true), news1)
       /\ save_archive c2 html2 now2 dir news1
          = Some (Ret (suffixed slug 1, true), news2)
       /\ slug <> suffixed slug 1
       /\ news2 !! dir = Some (Some a2)
       /\ get_existing_archive_url <$> a2 !! slug = Some (Some (url c1))
       /\ get_existing_archive_url <$> a2 !! suffixed slug 1
          = Some (Some (url c2))).
Proof.
  split.
  - intros ui html now dir news oa Hdir a slug.
    destruct (save_at_spec slug ui html now dir a)
      as (n & created & a' & Hs & Hbefore & Hlast).
    unfold save_archive. rewrite Hdir. fold a. fold slug. rewrite Hs.
    exists n, created. eexists. split; [reflexivity|]. split; [done|].
    destruct created.
    + destruct Hlast as [Hfree ->]. done.
    + destruct Hlast as [[f [Hf Hu]] ->]. split; [by exists f|].
      apply insert_id. rewrite Hdir. f_equal.
      destruct oa as [a0|]; [done|]. subst a. simpl in Hf.
      by rewrite lookup_empty in Hf.
  - intros c1 c2 html1 html2 now1 now2 dir news oa Hdir a slug Ht Hu H0 H1.
    pose proof (suffixed_ne_slug slug 1) as Hne.
    set (w1 := written c1 html1 now1 dir slug).
    set (w2 := written c2 html2 now2 dir (suffixed slug 1)).
    exists (<[dir := Some (<[slug := w1]> a)]> news),
           (<[dir := Some (<[suffixed slug 1 := w2]> (<[slug := w1]> a))]>
              (<[dir := Some (<[slug := w1]> a)]> news)),
           (<[suffixed slug 1 := w2]> (<[slug := w1]> a)).
    split; [|split; [|split; [|split; [|split]]]].
    + unfold save_archive, save_at, choose_dir.
      rewrite Hdir. fold a. fold slug. by rewrite H0.
    + unfold save_archive, save_at, choose_dir.
      rewrite lookup_insert_eq. simpl.
      rewrite <- Ht. fold slug. rewrite lookup_insert_eq.
      destruct (decide (get_existing_archive_url w1 = Some (url c2)))
        as [E|_]; [unfold w1 in E; injection E as E; done|].
      simpl. rewrite lookup_insert_ne by done. by rewrite H1.
    + done.
    + by rewrite lookup_insert_eq.
    + rewrite lookup_insert_ne by done. by rewrite lookup_insert_eq.
    + by rewrite lookup_insert_eq.
Qed.

End save_archive_facts.

Section save_archive_witness.
Import Slug Archive Samples.

Lemma save_archive_first_match_or_free_witness :
  news_bbc !! "bbc" = Some None
  /\ title foo_x = title foo_y
  /\ url foo_x <> url foo_y
  /\ exists news1 news2 (a2 : archive),
       save_archive foo_x "<html>x</html>" 0%nat "bbc" news_bbc
       = Some (Ret ("foo", true), news1)
       /\ save_archive foo_y "<html>y</html>" 1%nat "bbc" news1
          = Some (Ret ("foo-1", true), news2)
       /\ "foo" <> "foo-1"
       /\ news2 !! "bbc" = Some (Some a2)
       /\ get_existing_archive_url <$> a2 !! "foo" = Some (Some (url foo_x))
       /\ get_existing_archive_url <$> a2 !! "foo-1" = Some (Some (url foo_y)).
Proof.
  split; [reflexivity|]. split; [reflexivity|]. split; [discriminate|].
  exact (proj2 save_archive_first_match_or_free
           foo_x foo_y "<html>x</html>" "<html>y</html>" 0%nat 1%nat "bbc"
           news_bbc None eq_refl eq_refl ltac:(discriminate) eq_refl eq_refl).
Defined.

End save_archive_witness.

(** ** Every model function returns *)

Section totality.
Import PyStr Partition Archive Fetch Scheduler.

(** The recursion of the fetcher ends before its fuel does. *)
Lemma scrape_url_async_fuel_total fuel env ui cfg r b :
  (Z.to_nat (max_retries (get_site_config (url ui) cfg) - Z.of_nat r) < fuel)%nat ->
  exists res, scrape_url_async_fuel fuel env ui cfg r b = Some res.
Proof.
  revert r. induction fuel as [|fuel IH]; intros r Hf; [lia|].
  cbn [scrape_url_async_fuel].
  destruct (use_requests _); [by eexists|].
  destruct (use_uc_inmedia _); [by eexists|].
  destruct (new_page env r); [by eexists|].
  set (retry := if _ <? _ then _ else _).
  assert (Hretry : exists res, retry = Some res).
  { unfold retry.
    destruct (Z.ltb_spec (Z.of_nat r)
                (max_retries (get_site_config (url ui) cfg))); [|by eexists].
    destruct (IH (S r)) as [[evs res] ->]; [lia | by eexists]. }
  destruct (try_body (load_page env r)) as [html|e]; [by eexists|].
  destruct (decide (exn_cls e = PlaywrightTimeout)); [done|].
  destruct (is_download e); [by eexists | done].
Qed.

Theorem scrape_url_async_total env ui cfg r b :
  exists res, scrape_url_async env ui cfg r b = Some res.
Proof. apply scrape_url_async_fuel_total. unfold fuel_for. lia. Qed.

Theorem save_archive_total ui html now dir (news : news_dir) :
  exists res, save_archive ui html now dir news = Some res.
Proof.
  unfold save_archive. destruct (news !! dir) as [oa|]; [|by eexists].
  destruct (save_at_spec (Slug.slugify (title ui) Slug.default_max_length)
              ui html now dir (default ∅ oa)) as (n & c & a' & -> & _).
  by eexists.
Qed.

Lemma record_success_total um ui html w :
  exists res, record_success um ui html w = Some res.
Proof.
  unfold record_success.
  destruct (save_archive_total ui html (clock w)
              (resolve_source_dir (source ui) (news w)) (news w))
    as [[[[name created]|e] n'] ->]; by eexists.
Qed.

Theorem process_url_total env cfg um urls delay ui w :
  exists res, process_url env cfg um urls delay ui w = Some res.
Proof.
  unfold process_url.
  destruct (scrape_url_async_total env ui cfg 0 true)
    as [[evs [[html ok]|e]] ->]; [|by eexists].
  destruct (ok && _).
  - destruct (record_success_total um ui html (emit evs
      (World (news w) (reg w) (reg_file w) (res w) (progress_current w + 1)
             (clock w) (trace w)))) as [[[[]|e] w3] ->]; by eexists.
  - by eexists.
Qed.

Lemma queue_loop_total envs cfg um urls delay i rest w :
  exists res, queue_loop envs cfg um urls delay i rest w = Some res.
Proof.
  revert i w. induction rest as [|ui rest IH]; intros i w; [by eexists|].
  cbn [queue_loop].
  destruct (process_url_total (envs i) cfg um urls delay ui w)
    as [[[[]|e] w'] ->]; [apply IH | by eexists].
Qed.

Theorem scrape_domain_queue_total envs cfg um urls w :
  exists res, scrape_domain_queue envs cfg um urls w = Some res.
Proof.
  unfold scrape_domain_queue. destruct urls as [|first rest]; [by eexists|].
  destruct (queue_loop_total envs cfg um (first :: rest)
              (delay_seconds (get_site_config (url first) cfg)) 0
              (first :: rest) (emit [EvNewContext DomainContext] w))
    as [[[[]|e] w'] ->]; by eexists.
Qed.

Lemma worker_step_total envs cfg um others k w :
  exists res, worker_step envs cfg um others k w = Some res.
Proof.
  unfold worker_step. destruct (wk_phase k) as [|i| |e].
  - destruct (_ <? _)%nat; [|by eexists]. destruct (wk_urls k); by eexists.
  - destruct (wk_urls k !! i) as [ui|]; [|destruct (wk_urls k); by eexists].
    destruct (wk_urls k) as [|first rest] eqn:E; [by eexists|].
    destruct (process_url_total (envs (wk_domain k) i) cfg um (first :: rest)
                (delay_seconds (get_site_config (url first) cfg)) ui w)
      as [[[[]|e] w'] ->]; by eexists.
  - by eexists.
  - by eexists.
Qed.

Lemma step_domain_total envs cfg um d before ws w :
  exists res, step_domain envs cfg um d before ws w = Some res.
Proof.
  revert before. induction ws as [|k ws IH]; intros before; [by eexists|].
  cbn [step_domain]. destruct (decide (wk_domain k = d)); [|apply IH].
  destruct (worker_step_total envs cfg um (before ++ ws) k w) as [[k' w'] ->].
  by eexists.
Qed.

Lemma run_schedule_total envs cfg um schedule ws w :
  exists res, run_schedule envs cfg um schedule ws w = Some res.
Proof.
  revert ws w. induction schedule as [|d schedule IH]; intros ws w;
    [by eexists|].
  cbn [run_schedule].
  destruct (step_domain_total envs cfg um d [] ws w) as [[ws' w'] ->].
  apply IH.
Qed.

Theorem run_scraper_async_total envs cfg dry_run limit um schedule all_urls w :
  exists res,
    run_scraper_async envs cfg dry_run limit um schedule all_urls w = Some res.
Proof.
  unfold run_scraper_async.
  destruct (plan_run dry_run limit all_urls (reg w)) as [r|new_urls domains];
    [by eexists|].
  destruct (run_schedule_total envs cfg um schedule (start_workers domains)
              (World (news w) (reg w) (reg_file w) no_results 0 (clock w)
                     (trace w))) as [[ws w'] ->].
  by eexists.
Qed.

End totality.

(** ** The fetcher *)

Section fetch_facts.
Import PyStr Partition Fetch.

Lemma attempts_app t1 t2 : attempts (t1 ++ t2) = (attempts t1 + attempts t2)%nat.
Proof. unfold attempts. by rewrite List.filter_app, length_app. Qed.

Lemma backoffs_app t1 t2 : backoffs (t1 ++ t2) = backoffs t1 ++ backoffs t2.
Proof. apply omap_app. Qed.

Lemma acquire_context_quiet env s b r :
  attempts (acq_events (acquire_context env s b r)) = 0%nat
  /\ backoffs (acq_events (acquire_context env s b r)) = [].
Proof.
  unfold acquire_context.
  destruct (no_http2 s && b); [destruct (new_context env r)|]; done.
Qed.

Lemma page_opened_counts env s b r u t :
  attempts (page_opened (acquire_context env s b r) r u t s) = 1%nat
  /\ backoffs (page_opened (acquire_context env s b r) r u t s) = [].
Proof.
  unfold page_opened.
  destruct (acquire_context_quiet env s b r) as [Ha Hb].
  by rewrite attempts_app, backoffs_app, Ha, Hb.
Qed.

Lemma page_finally_counts a r :
  attempts (page_finally a r) = 0%nat /\ backoffs (page_finally a r) = [].
Proof. unfold page_finally. by destruct (acq_created a). Qed.

(** The first three strategies of a URL that is not pinned go through
    the browser. *)
Lemma browser_strategy u r :
  contains "inmediahk.net" u = false -> (r <= 2)%nat ->
  use_requests (select_strategy u r) = false
  /\ use_uc_inmedia (select_strategy u r) = false.
Proof.
  intros H Hr. unfold select_strategy, strategies_for. rewrite H.
  destruct r as [|[|[|r]]]; [done..|lia].
Qed.



End fetch_facts.

(** ** The fetcher as a relation *)

Section fetch_relation.
Import PyStr Partition Fetch.

(** Name the trace and the result an equation between two runs fixes,
    without touching the shape of either. *)
Ltac pin_run H :=
  match type of H with
  | Some (?a, ?b) = Some (?t, ?r) =>
      assert (t = a) as -> by congruence;
      assert (r = b) as -> by congruence;
      clear H
  end.

(** Every run of the function is a derivation of the relation. *)
Lemma scrape_fetches fuel env ui cfg r b t res :
  scrape_url_async_fuel fuel env ui cfg r b = Some (t, res) ->
  fetches env ui cfg b r t res.
Proof.
  revert r t res. induction fuel as [|fuel IH]; intros r t res H; [done|].
  cbn [scrape_url_async_fuel] in H.
  destruct (use_requests (select_strategy (url ui) r)) eqn:Ereq.
  { destruct (scrape_with_requests env (url ui)) as [t0 r0] eqn:E.
    pin_run H.
    pose proof (fetches_requests env ui cfg b r Ereq) as F.
    by rewrite E in F. }
  destruct (use_uc_inmedia (select_strategy (url ui) r)) eqn:Euc.
  { destruct (scrape_with_uc_inmedia env (url ui)) as [t0 r0] eqn:E.
    pin_run H.
    pose proof (fetches_uc env ui cfg b r Ereq Euc) as F.
    by rewrite E in F. }
  assert (Hb : through_browser ui r) by done.
  destruct (new_page env r) as [e|] eqn:Epage.
  { pin_run H. by apply fetches_no_page. }
  destruct (try_body (load_page env r)) as [html|e] eqn:Et.
  { pin_run H. by apply fetches_page. }
  assert (Hretry : retried e ->
    (if Z.of_nat r <? max_retries (get_site_config (url ui) cfg)
     then match scrape_url_async_fuel fuel env ui cfg (S r) b with
          | Some (evs, res0) =>
              Some (opened_at env ui cfg b r
                    ++ [EvBackoff (2 ^ Z.of_nat r)] ++ evs
                    ++ finally_at env ui b r, res0)
          | None => None
          end
     else Some (opened_at env ui cfg b r ++ finally_at env ui b r, failed))
    = Some (t, res) -> fetches env ui cfg b r t res).
  { intros He.
    destruct (Z.ltb_spec (Z.of_nat r)
                (max_retries (get_site_config (url ui) cfg))) as [Hlt|Hge].
    - destruct (scrape_url_async_fuel fuel env ui cfg (S r) b)
        as [[evs res0]|] eqn:Er; [|done].
      intros H'. pin_run H'.
      eapply fetches_retry; eauto.
    - intros H'. pin_run H'.
      eapply fetches_exhausted; eauto. unfold may_retry. lia. }
  destruct (decide (exn_cls e = PlaywrightTimeout)) as [Hc|Hc].
  { apply Hretry; [by left | exact H]. }
  destruct (is_download e) eqn:Ed.
  - pin_run H. eapply fetches_download; eauto.
    unfold retried. intros [?|?]; congruence.
  - apply Hretry; [by right | exact H].
Qed.

(** And every derivation is the run of the function, given the fuel of
    [fuel_for]. *)
Lemma fetches_scrape env ui cfg b r t res :
  fetches env ui cfg b r t res ->
  forall fuel,
    (Z.to_nat (max_retries (get_site_config (url ui) cfg) - Z.of_nat r) < fuel)%nat ->
    scrape_url_async_fuel fuel env ui cfg r b = Some (t, res).
Proof.
  induction 1 as [r Hreq|r Hreq Huc|r e [Hreq Huc] Hp|r h [Hreq Huc] Hp Ht
                 |r e [Hreq Huc] Hp Ht He|r e [Hreq Huc] Hp Ht He Hm
                 |r e evs res [Hreq Huc] Hp Ht He Hm F IH];
    intros [|fuel] Hfuel; try lia; cbn [scrape_url_async_fuel];
    unfold strategy_at in *; rewrite Hreq.
  - by destruct (scrape_with_requests env (url ui)).
  - rewrite Huc. by destruct (scrape_with_uc_inmedia env (url ui)).
  - by rewrite Huc, Hp.
  - by rewrite Huc, Hp, Ht.
  - rewrite Huc, Hp, Ht.
    destruct (decide (exn_cls e = PlaywrightTimeout)) as [Hc|Hc];
      [by destruct He; left|].
    destruct (is_download e) eqn:Ed; [done | by destruct He; right].
  - rewrite Huc, Hp, Ht.
    assert (Hnot : (Z.of_nat r <? max_retries (get_site_config (url ui) cfg))
                   = false) by (apply Z.ltb_ge; unfold may_retry in Hm; lia).
    rewrite Hnot.
    destruct (decide (exn_cls e = PlaywrightTimeout)); [done|].
    destruct He as [?| ->]; done.
  - rewrite Huc, Hp, Ht.
    assert (Hyes : (Z.of_nat r <? max_retries (get_site_config (url ui) cfg))
                   = true) by (by apply Z.ltb_lt).
    rewrite Hyes, (IH fuel) by (unfold may_retry in Hm; lia).
    destruct (decide (exn_cls e = PlaywrightTimeout)); [done|].
    destruct He as [?| ->]; done.
Qed.

(** The relation is the graph of [scrape_url_async]. *)
Theorem fetches_iff env ui cfg b r t res :
  fetches env ui cfg b r t res
  <-> scrape_url_async env ui cfg r b = Some (t, res).
Proof.
  split.
  - intros F. apply (fetches_scrape _ _ _ _ _ _ _ F). unfold fuel_for. lia.
  - apply scrape_fetches.
Qed.

End fetch_relation.

Section retry_exhaustion_examples.
Import PyStr Partition Fetch Samples.



End retry_exhaustion_examples.

Section download_facts.
Import PyStr Partition Archive Fetch Scheduler.

(** A browser attempt that ends in a started download ends the fetch,
    at whatever retry count. *)
Lemma download_attempt fuel env ui cfg r b :
  contains "inmediahk.net" (url ui) = false -> (r <= 2)%nat ->
  new_page env r = None ->
  download_triggered (load_page env r) ->
  exists trace,
    scrape_url_async_fuel (S fuel) env ui cfg r b = Some (trace, failed)
    /\ attempts trace = 1%nat /\ backoffs trace = [].
Proof.
  intros Hu Hr Hpage Hdl.
  destruct (browser_strategy _ r Hu Hr) as [Hreq Huc].
  cbn [scrape_url_async_fuel]. rewrite Hreq, Huc, Hpage.
  unfold download_triggered in Hdl.
  destruct (load_page env r) as [html|e]; [done|]. destruct Hdl as [Hc Hd].
  cbn [try_body]. rewrite decide_False by done. rewrite Hd.
  eexists. split; [reflexivity|].
  rewrite attempts_app, backoffs_app.
  rewrite (proj1 (page_opened_counts _ _ _ _ _ _)),
    (proj2 (page_opened_counts _ _ _ _ _ _)),
    (proj1 (page_finally_counts _ _)), (proj2 (page_finally_counts _ _)).
  done.
Qed.

(** So does the one attempt on the pinned site. *)
Lemma first_attempt_terminal env ui cfg b :
  first_attempt_downloads env (url ui) ->
  exists trace,
    scrape_url_async env ui cfg 0 b = Some (trace, failed)
    /\ attempts trace = 1%nat /\ backoffs trace = [].
Proof.
  unfold first_attempt_downloads, scrape_url_async, fuel_for.
  destruct (contains "inmediahk.net" (url ui)) eqn:Hu.
  - intros [Hchrome Hdl]. cbn [scrape_url_async_fuel].
    unfold select_strategy, strategies_for. rewrite Hu. cbn.
    unfold scrape_with_uc_inmedia. rewrite Hchrome.
    unfold download_triggered in Hdl.
    destruct (uc_load env) as [c|e]; [done|].
    by eexists.
  - intros [Hpage Hdl]. apply download_attempt; [done | lia | done | done].
Qed.

Lemma rate_limit_delay_world urls delay ui w :
  exists r w',
    rate_limit_delay urls delay ui w = (r, w')
    /\ res w' = res w /\ reg w' = reg w /\ reg_file w' = reg_file w
    /\ news w' = news w.
Proof.
  unfold rate_limit_delay.
  destruct (list_index ui urls) as [i|]; [|by eexists _, _].
  destruct (_ <? _); by eexists _, _.
Qed.

(** The loop turn of a fetch that failed. *)
Lemma process_url_failed env cfg um urls delay ui w trace :
  scrape_url_async env ui cfg 0 true = Some (trace, failed) ->
  exists r w',
    process_url env cfg um urls delay ui w = Some (r, w')
    /\ rs_failed (res w') = rs_failed (res w) + 1
    /\ rs_failed_urls (res w') = rs_failed_urls (res w) ++ [url ui]
    /\ rs_success (res w') = rs_success (res w)
    /\ reg w' = reg w /\ reg_file w' = reg_file w /\ news w' = news w.
Proof.
  intros Hs. unfold process_url. rewrite Hs. unfold failed.
  cbn [andb].
  set (w3 := record_failure ui _).
  destruct (rate_limit_delay_world urls delay ui w3)
    as (r & w' & -> & Hres & Hreg & Hfile & Hnews).
  exists r, w'. split; [done|].
  rewrite Hres, Hreg, Hfile, Hnews. done.
Qed.

End download_facts.

Section download_terminal.
Import PyStr Partition Archive Fetch Scheduler.

(** A run on one new candidate whose fetch fails: the worker starts,
    handles the candidate, and closes. *)
Lemma run_single_failed env cfg um ui w trace :
  scraped_urls (reg w) !! url ui = None ->
  scrape_url_async env ui cfg 0 true = Some (trace, failed) ->
  let d := get_domain (url ui) in
  exists w',
    run_scraper_async (fun _ _ => env) cfg false None um [d; d; d] [ui] w
    = Some (RunReturns (Results 0 1 [url ui]) w')
    /\ reg w' = reg w /\ reg_file w' = reg_file w /\ news w' = news w.
Proof.
  intros Hnew Hs d.
  unfold run_scraper_async, plan_run, apply_limit, filter_new_urls.
  cbn [List.filter]. rewrite bool_decide_eq_true_2 by done.
  unfold group_urls_by_domain. cbn [foldl dict_append start_workers map fst snd].
  fold d.
  cbn [run_schedule step_domain wk_domain]. rewrite decide_True by done.
  cbn [worker_step wk_phase wk_urls app active List.filter length].
  change (0 <? MAX_CONCURRENT_DOMAINS)%nat with true. cbv iota.
  cbn [step_domain wk_domain]. rewrite decide_True by done.
  cbn [worker_step wk_phase wk_urls app lookup list_lookup].
  unfold process_url. rewrite Hs. unfold failed. cbn [andb].
  unfold rate_limit_delay. cbn [list_index]. rewrite decide_True by done.
  change (Z.of_nat 0 <? Z.of_nat (length [ui]) - 1) with false. cbv iota.
  cbn [step_domain wk_domain]. rewrite decide_True by done.
  cbn [worker_step wk_phase wk_urls app lookup list_lookup].
  cbn [first_crash wk_phase forallb is_closed andb].
  eexists. split; [reflexivity|]. done.
Qed.

(** C4.  A fetch whose first attempt fails with an error that tells of
    a started download makes exactly one attempt and no retry; the
    scheduler counts one failure, appends the URL to the failed URLs
    and leaves the registry, its file and the archive as they were. *)
Theorem download_failure_is_terminal env ui cfg :
  first_attempt_downloads env (url ui) ->
  (exists trace,
     scrape_url_async env ui cfg 0 true = Some (trace, failed)
     /\ attempts trace = 1%nat /\ backoffs trace = [])
  /\ (forall um urls delay w, exists r w',
        process_url env cfg um urls delay ui w = Some (r, w')
        /\ rs_failed (res w') = rs_failed (res w) + 1
        /\ rs_failed_urls (res w') = rs_failed_urls (res w) ++ [url ui]
        /\ rs_success (res w') = rs_success (res w)
        /\ reg w' = reg w /\ reg_file w' = reg_file w /\ news w' = news w)
  /\ (forall um w,
        scraped_urls (reg w) !! url ui = None ->
        exists w',
          run_scraper_async (fun _ _ => env) cfg false None um
            (replicate 3 (get_domain (url ui))) [ui] w
          = Some (RunReturns (Results 0 1 [url ui]) w')
          /\ scraped_urls (reg w') !! url ui = None
          /\ reg w' = reg w /\ reg_file w' = reg_file w /\ news w' = news w).
Proof.
  intros Hdl.
  destruct (first_attempt_terminal env ui cfg true Hdl) as (trace & Hs & Ha & Hb).
  split; [by exists trace|]. split.
  - intros um urls delay w. by eapply process_url_failed.
  - intros um w Hnew.
    destruct (run_single_failed env cfg um ui w trace Hnew Hs)
      as (w' & Hrun & Hreg & Hfile & Hnews).
    exists w'. split; [exact Hrun|]. by rewrite Hreg.
Qed.

End download_terminal.

Section download_terminal_witness.
Import PyStr Partition Archive Fetch Scheduler Samples.

Lemma download_failure_is_terminal_witness :
  first_attempt_downloads (env_always (Raise download_error)) (url foo_x)
  /\ exists w',
       run_scraper_async (fun _ _ => env_always (Raise download_error))
         (cfg_retries 3) false None true
         (replicate 3 (get_domain (url foo_x))) [foo_x] fresh_world
       = Some (RunReturns (Results 0 1 [url foo_x]) w')
       /\ scraped_urls (reg w') !! url foo_x = None
       /\ reg w' = reg fresh_world /\ reg_file w' = reg_file fresh_world
       /\ news w' = news fresh_world.
Proof.
  assert (Hdl : first_attempt_downloads (env_always (Raise download_error))
                  (url foo_x))
    by (split; [reflexivity | split; [discriminate | reflexivity]]).
  split; [exact Hdl|].
  exact (proj2 (proj2 (download_failure_is_terminal
           (env_always (Raise download_error)) foo_x (cfg_retries 3) Hdl))
           true fresh_world eq_refl).
Defined.

End download_terminal_witness.

Section threshold_facts.
Import PyStr Partition Fetch.

Lemma try_body_ret loaded html :
  try_body loaded = Ret html ->
  (min_content_length <= String.length html)%nat.
Proof.
  unfold try_body. destruct loaded as [h|e]; [|done].
  destruct (Nat.ltb_spec (String.length h) min_content_length); [done|].
  by intros [= <-].
Qed.

Lemma try_body_short html :
  (String.length html < min_content_length)%nat ->
  try_body (Ret html) = Raise too_short.
Proof.
  intros H. unfold try_body.
  by destruct (Nat.ltb_spec (String.length html) min_content_length); [|lia].
Qed.

Lemma no_fallback_app t1 t2 :
  forallb (fun e => negb (is_fallback e)) (t1 ++ t2) = true ->
  forallb (fun e => negb (is_fallback e)) t1 = true
  /\ forallb (fun e => negb (is_fallback e)) t2 = true.
Proof. rewrite forallb_app. by intros [? ?]%andb_true_iff. Qed.

(** A success that did not come from a fallback carries a page of the
    minimum length at least. *)
Lemma fetches_success_long env ui cfg b r t res :
  fetches env ui cfg b r t res ->
  forall html, res = Ret (html, true) ->
  forallb (fun e => negb (is_fallback e)) t = true ->
  (min_content_length <= String.length html)%nat.
Proof.
  induction 1 as [r Hreq|r Hreq Huc|r e Hb Hp|r h Hb Hp Ht|r e Hb Hp Ht He
                 |r e Hb Hp Ht He Hm|r e evs res Hb Hp Ht He Hm F IH];
    intros html Hres Hnf; try done.
  - unfold scrape_with_uc_inmedia in *.
    destruct (uc_chrome env); [done|]. by destruct (uc_load env).
  - injection Hres as <-. by eapply try_body_ret.
  - apply (IH html Hres).
    apply no_fallback_app in Hnf as [_ Hnf].
    apply no_fallback_app in Hnf as [_ Hnf].
    by apply no_fallback_app in Hnf as [Hnf _].
Qed.

Lemma browser_success_long fuel env ui cfg r b trace html :
  scrape_url_async_fuel fuel env ui cfg r b = Some (trace, Ret (html, true)) ->
  forallb (fun e => negb (is_fallback e)) trace = true ->
  (min_content_length <= String.length html)%nat.
Proof.
  intros H%scrape_fetches Hnf. by eapply fetches_success_long.
Qed.

(** The fetcher reads a page load through [try_body] only. *)
Lemma scrape_with_load fuel env ui cfg r0 o r b :
  try_body o = try_body (load_page env r0) ->
  scrape_url_async_fuel fuel (with_load env r0 o) ui cfg r b
  = scrape_url_async_fuel fuel env ui cfg r b.
Proof.
  intros Ho. revert r. induction fuel as [|fuel IH]; intros r; [done|].
  cbn [scrape_url_async_fuel]. rewrite IH.
  assert (Hl : try_body (load_page (with_load env r0 o) r)
               = try_body (load_page env r)).
  { unfold with_load. cbn [load_page]. by destruct (decide (r = r0)) as [->|]. }
  rewrite Hl. reflexivity.
Qed.

(** C7, as amended.  Every fetch ends; under the strategies that go
    through the browser, one that returns [ok = true] carries at least
    500 characters; a shorter page raises inside the attempt and is
    handled exactly as the error [ValueError] from any other source:
    the same retries follow.  (The two fallbacks return what they
    get.) *)
Theorem browser_content_threshold :
  (forall env ui cfg r b,
     exists trace res, scrape_url_async env ui cfg r b = Some (trace, res))
  /\ (forall env ui cfg r b trace html,
     scrape_url_async env ui cfg r b = Some (trace, Ret (html, true)) ->
     forallb (fun e => negb (is_fallback e)) trace = true ->
     (500 <= String.length html)%nat)
  /\ (forall env ui cfg r0 r b html,
        load_page env r0 = Ret html ->
        (String.length html < 500)%nat ->
        scrape_url_async env ui cfg r b
        = scrape_url_async (with_load env r0 (Raise too_short)) ui cfg r b).
Proof.
  split; [|split].
  - intros env ui cfg r b.
    destruct (scrape_url_async_total env ui cfg r b) as [[trace res] H].
    by exists trace, res.
  - intros env ui cfg r b trace html H Hnf.
    by eapply browser_success_long.
  - intros env ui cfg r0 r b html Hload Hshort.
    unfold scrape_url_async. symmetry. apply scrape_with_load.
    rewrite Hload. symmetry. by apply try_body_short.
Qed.

End threshold_facts.

Section threshold_examples.
Import PyStr Partition Fetch Samples.

Lemma browser_content_threshold_witness :
  (exists trace,
     scrape_url_async (env_always (Ret long_page)) foo_x (cfg_retries 3) 0 true
     = Some (trace, Ret (long_page, true))
     /\ forallb (fun e => negb (is_fallback e)) trace = true
     /\ (500 <= String.length long_page)%nat)
  /\ load_page (env_always (Ret "<!-->")) 0 = Ret "<!-->"
  /\ (String.length "<!-->" < 500)%nat
  /\ scrape_url_async (env_always (Ret "<!-->")) foo_x (cfg_retries 3) 0 true
     = scrape_url_async
         (with_load (env_always (Ret "<!-->")) 0 (Raise too_short))
         foo_x (cfg_retries 3) 0 true.
Proof.
  destruct browser_content_threshold as (_ & Hlong & Hshort).
  assert (Hlt : (String.length "<!-->" < 500)%nat) by (simpl; lia).
  split.
  - eexists. split; [vm_compute; reflexivity|]. split; [reflexivity|].
    eapply (Hlong (env_always (Ret long_page)) foo_x (cfg_retries 3) 0%nat true).
    + vm_compute. reflexivity.
    + reflexivity.
  - split; [reflexivity|]. split; [exact Hlt|].
    exact (Hshort (env_always (Ret "<!-->")) foo_x (cfg_retries 3) 0%nat 0%nat
             true "<!-->" eq_refl Hlt).
Defined.

(** C7 as stated fails for the plain GET of the last strategy: after
    three timeouts of the browser it returns [ok = true] with a body of
    five characters. *)
Lemma fallback_returns_short_content :
  exists trace,
    scrape_url_async env_short_fallback foo_x (cfg_retries 3) 0 true
    = Some (trace, Ret ("<!-->", true))
    /\ attempts trace = 4%nat
    /\ (String.length "<!-->" < 500)%nat.
Proof.
  eexists. split; [vm_compute; reflexivity|]. split; [reflexivity|].
  simpl. lia.
Qed.

End threshold_examples.

Section release_facts.
Import PyStr Partition Fetch Samples.

(** C6, at two inputs the fetcher can receive.  On the pinned site a
    load that fails after the driver has started returns the failure
    shape and leaves the driver open.  When the page of the third
    attempt cannot be opened, the exception leaves [scrape_url_async],
    and the context made for that attempt is left open. *)
Theorem fetcher_leaks_on_error_paths :
  scrape_url_async (env_always (Raise connection_error)) inmedia_page
    (cfg_retries 3) 0 true
  = Some ([EvUcStart; EvUcGet (url inmedia_page)], failed)
  /\ released [EvUcStart; EvUcGet (url inmedia_page)] = false
  /\ exists trace,
       scrape_url_async env_no_page foo_x (cfg_retries 3) 0 true
       = Some (trace, Raise connection_error)
       /\ In (EvNewContext (RetryContext 2)) trace
       /\ ~ In (EvCloseContext (RetryContext 2)) trace
       /\ released trace = false.
Proof.
  split; [reflexivity|]. split; [reflexivity|].
  eexists. split; [vm_compute; reflexivity|].
  split; [simpl; tauto|]. split; [|reflexivity].
  simpl. intros H. repeat destruct H as [H|H]; try discriminate H. exact H.
Qed.

End release_facts.

(** ** The scheduler *)

Section politeness_facts.
Import PyStr Partition Archive Fetch Scheduler Samples.

Lemma list_index_lookup x l i :
  list_index x l = Some i -> l !! i = Some x.
Proof.
  revert i. induction l as [|y l IH]; intros i; simpl; [done|].
  destruct (decide (y = x)) as [->|Hne].
  - by intros [= <-].
  - destruct (list_index x l) as [j|]; [|done].
    intros [= <-]. by apply IH.
Qed.



(** C9, at a queue the worker can receive: the same candidate twice, as
    when a document links an article twice.  The pause follows the last
    request as well, because [urls.index] finds the first of the two
    equal entries. *)
Theorem politeness_delay_after_last_duplicate :
  list_index foo_x [foo_x; foo_x] = Some 0%nat
  /\ exists w',
       scrape_domain_queue (fun _ => env_always (Raise download_error))
         (cfg_retries 3) true [foo_x; foo_x] fresh_world
       = Some (Ret tt, w')
       /\ trace w'
          = [EvNewContext DomainContext;
             EvNewPage DomainContext 0;
             EvGoto 0 (url foo_x) 60000 DomContentLoaded;
             EvClosePage 0;
             EvPoliteness 3;
             EvNewPage DomainContext 0;
             EvGoto 0 (url foo_x) 60000 DomContentLoaded;
             EvClosePage 0;
             EvPoliteness 3;
             EvCloseContext DomainContext]
       /\ attempts (trace w') = 2%nat
       /\ politeness_delays (trace w') = [3; 3].
Proof.
  split; [reflexivity|].
  eexists. split; [vm_compute; reflexivity|]. repeat split.
Qed.

End politeness_facts.

Section dedup_facts.
Import PyStr Partition Archive Fetch Scheduler Samples.

Lemma filter_new_urls_unrecorded urls r u :
  In u (filter_new_urls urls r) -> scraped_urls r !! url u = None.
Proof.
  unfold filter_new_urls. rewrite List.filter_In.
  by intros [_ ?%bool_decide_eq_true].
Qed.

Lemma filter_new_urls_all_recorded urls r :
  (forall u, In u urls -> is_Some (scraped_urls r !! url u)) ->
  filter_new_urls urls r = [].
Proof.
  unfold filter_new_urls. induction urls as [|u urls IH]; intros H; [done|].
  simpl. destruct (H u (or_introl eq_refl)) as [e He].
  rewrite bool_decide_eq_false_2 by (by rewrite He).
  apply IH. intros v Hv. apply H. by right.
Qed.

Lemma apply_limit_nil limit : apply_limit limit [] = [].
Proof.
  unfold apply_limit. destruct limit as [n|]; [|done].
  destruct (n =? 0); [done|].
  unfold slice_to. by destruct (0 <=? n); rewrite take_nil.
Qed.

(** A run on candidates that are all recorded starts no worker and
    leaves everything as it is. *)
Lemma run_all_recorded envs cfg dry_run limit um schedule all_urls w :
  (forall u, In u all_urls -> is_Some (scraped_urls (reg w) !! url u)) ->
  run_scraper_async envs cfg dry_run limit um schedule all_urls w
  = Some (RunReturns no_results w).
Proof.
  intros H. unfold run_scraper_async, plan_run.
  rewrite (filter_new_urls_all_recorded _ _ H), apply_limit_nil.
  by destruct dry_run.
Qed.

(** C8 as stated fails: a URL whose fetch failed in the first run is
    not in the registry, and a second run that reaches it archives and
    records it. *)
Lemma failed_url_is_fetched_again :
  exists w1 w2,
    run_scraper_async (fun _ _ => env_always (Raise connection_error))
      (cfg_retries 0) false None true (replicate 3 "a.example")
      [foo_x] fresh_world
    = Some (RunReturns (Results 0 1 [url foo_x]) w1)
    /\ run_scraper_async (fun _ _ => env_always (Ret long_page))
         (cfg_retries 0) false None true (replicate 3 "a.example")
         [foo_x] w1
       = Some (RunReturns (Results 1 0 []) w2)
    /\ archive_dirs (news w1) = []
    /\ archive_dirs (news w2) = [("bbc", "foo")]
    /\ scraped_urls (reg w1) !! url foo_x = None
    /\ is_Some (scraped_urls (reg w2) !! url foo_x).
Proof.
  eexists _, _. split; [vm_compute; reflexivity|].
  split; [vm_compute; reflexivity|].
  split; [reflexivity|]. split; [vm_compute; reflexivity|].
  split; [reflexivity|]. vm_compute. eexists. reflexivity.
Qed.

End dedup_facts.

Section run_invariant.
Import PyStr Partition Archive Fetch Scheduler.

Lemma grows_refl w : grows w w.
Proof. unfold grows. split; [done|]. split; [lia | done]. Qed.

Lemma grows_trans w1 w2 w3 : grows w1 w2 -> grows w2 w3 -> grows w1 w3.
Proof.
  unfold grows. intros (H1 & H2 & H3) (H4 & H5 & H6).
  split; [auto|]. split; [lia | auto].
Qed.

Lemma grows_emit evs w : grows w (emit evs w).
Proof. unfold grows, emit, recorded, persisted. cbn. split; [done|]. split; [lia | done]. Qed.

Lemma rate_limit_delay_grows urls delay ui w r w' :
  rate_limit_delay urls delay ui w = (r, w') ->
  grows w w' /\ res w' = res w /\ reg w' = reg w.
Proof.
  unfold rate_limit_delay.
  destruct (list_index ui urls) as [i|].
  - destruct (_ <? _); intros [= <- <-];
      (split; [apply grows_emit || apply grows_refl | done]).
  - intros [= <- <-]. split; [apply grows_refl | done].
Qed.

Lemma record_success_grows um ui html w r w' :
  record_success um ui html w = Some (r, w') ->
  grows w w' /\ (r = Ret tt -> recorded w' ui).
Proof.
  unfold record_success.
  destruct (save_archive _ _ _ _ _) as [[[[name created]|e] n']|]; [| |done].
  - intros [= <- <-]. split.
    + unfold grows, recorded, persisted. cbn. split; [|split; [lia | done]].
      intros u Hu. destruct (decide (url ui = url u)) as [->|Hne].
      * rewrite lookup_insert_eq. by eexists.
      * by rewrite lookup_insert_ne.
    + intros _. unfold recorded. cbn. rewrite lookup_insert_eq. by eexists.
  - intros [= <- <-]. split; [|done].
    unfold grows, recorded, persisted. cbn. split; [done|]. split; [lia | done].
Qed.

(** One loop turn: the registry and the failures only grow; a turn
    that ends normally has recorded its URL or counted a failure. *)
Lemma process_url_grows env cfg um urls delay ui w r w' :
  process_url env cfg um urls delay ui w = Some (r, w') ->
  grows w w'
  /\ (r = Ret tt -> rs_failed (res w') = rs_failed (res w) -> recorded w' ui).
Proof.
  unfold process_url.
  destruct (scrape_url_async env ui cfg 0 true) as [[evs [[html ok]|e]]|];
    [| |done].
  - set (w2 := emit evs _).
    assert (Hw2 : grows w w2 /\ res w2 = res w).
    { unfold w2, grows, emit, recorded, persisted. cbn.
      split; [|done]. split; [done|]. split; [lia | done]. }
    destruct Hw2 as [Hg2 Hr2].
    destruct (ok && negb (bool_decide (html = EmptyString))).
    + destruct (record_success um ui html w2) as [[[[]|e] w3]|] eqn:Es; [| |done].
      * destruct (record_success_grows _ _ _ _ _ _ Es) as [Hg3 Hrec].
        intros [= H]. destruct (rate_limit_delay_grows _ _ _ _ _ _ H)
          as (Hg4 & Hres & Hreg).
        split; [eauto using grows_trans|].
        intros _ _. destruct Hg4 as [Hk _]. apply Hk. by apply Hrec.
      * intros [= <- <-].
        destruct (record_success_grows _ _ _ _ _ _ Es) as [Hg3 _].
        split; [eauto using grows_trans | done].
    + intros [= H]. destruct (rate_limit_delay_grows _ _ _ _ _ _ H)
        as (Hg4 & Hres & Hreg).
      assert (Hg3 : grows w2 (record_failure ui w2)).
      { unfold grows, record_failure, recorded, persisted. cbn.
        split; [done|]. split; [lia | done]. }
      split; [eauto using grows_trans|].
      intros _ Hf. rewrite Hres in Hf. unfold record_failure in Hf.
      cbn in Hf. lia.
  - intros [= <- <-]. split; [|done].
    unfold grows, emit, recorded, persisted. cbn.
    split; [done|]. split; [lia | done].
Qed.

Lemma handled_recorded_grows w w' k :
  grows w w' -> handled_recorded w k -> handled_recorded w' k.
Proof. intros [Hg _] H j u Hj Hu. apply Hg. by eapply H. Qed.

(** One move of a worker keeps its queue, and keeps the URLs it has
    handled recorded as long as no failure is counted. *)
Lemma worker_step_grows envs cfg um others k w k' w' :
  worker_step envs cfg um others k w = Some (k', w') ->
  grows w w'
  /\ wk_urls k' = wk_urls k
  /\ (rs_failed (res w') = rs_failed (res w) ->
      handled_recorded w k -> handled_recorded w' k').
Proof.
  unfold worker_step.
  destruct (wk_phase k) as [|i| |e] eqn:Ep.
  - destruct (_ <? _)%nat.
    + destruct (wk_urls k) as [|u0 l0] eqn:Eu; intros [= <- <-];
        (split; [apply grows_emit|]); (split; [done|]);
        intros _ _ j u Hj; unfold handled in Hj; cbn in Hj; lia.
    + intros [= <- <-]. split; [apply grows_refl|]. done.
  - destruct (wk_urls k !! i) as [ui|] eqn:Ei.
    + destruct (wk_urls k) as [|first rest] eqn:Eu; [done|].
      destruct (process_url _ _ _ _ _ _ _) as [[[[]|e] w1]|] eqn:Epr; [| |done].
      * intros [= <- <-].
        destruct (process_url_grows _ _ _ _ _ _ _ _ _ Epr) as [Hg Hrec].
        split; [done|]. split; [done|].
        intros Hf Hk j u Hj Hu. unfold handled in Hj. cbn in Hj, Hu.
        destruct (decide (j = i)) as [->|Hne].
        -- rewrite Ei in Hu. injection Hu as <-.
           by apply Hrec.
        -- destruct Hg as [Hg _]. apply Hg. apply (Hk j u).
           ++ unfold handled. rewrite Ep. lia.
           ++ by rewrite Eu.
      * intros [= <- <-].
        destruct (process_url_grows _ _ _ _ _ _ _ _ _ Epr) as [Hg _].
        split; [done|]. split; [done|].
        intros _ _ j u Hj. unfold handled in Hj. cbn in Hj. lia.
    + intros H.
      assert (H' : Some (Worker (wk_domain k) (wk_urls k) Closed,
                        emit [EvCloseContext DomainContext] w) = Some (k', w')).
      { by destruct (wk_urls k). }
      injection H' as <- <-.
      split; [apply grows_emit|]. split; [done|].
      intros _ Hk j u Hj Hu. unfold handled in Hj. cbn in Hj, Hu.
      apply (Hk j u); [|done].
      unfold handled. rewrite Ep.
      apply lookup_ge_None in Ei. lia.
  - intros [= <- <-]. split; [apply grows_refl|]. done.
  - intros [= <- <-]. split; [apply grows_refl|]. done.
Qed.

End run_invariant.

Section run_completeness.
Import PyStr Partition Archive Fetch Scheduler.

Lemma step_domain_grows envs cfg um d before ws w ws' w' :
  step_domain envs cfg um d before ws w = Some (ws', w') ->
  0 <= rs_failed (res w) ->
  grows w w'
  /\ map wk_urls ws' = map wk_urls (before ++ ws)
  /\ (rs_failed (res w') = 0 ->
      Forall (handled_recorded w) (before ++ ws) ->
      Forall (handled_recorded w') ws').
Proof.
  revert before. induction ws as [|k ws IH]; intros before H H0.
  - injection H as <- <-. rewrite app_nil_r.
    split; [apply grows_refl | done].
  - cbn [step_domain] in H.
    destruct (decide (wk_domain k = d)) as [_|_].
    + destruct (worker_step envs cfg um (before ++ ws) k w)
        as [[k' w1]|] eqn:Ek; [|done].
      injection H as <- <-.
      destruct (worker_step_grows _ _ _ _ _ _ _ _ Ek) as (Hg & Hu & Hk).
      split; [done|]. split.
      * by rewrite !map_app, !map_cons, Hu.
      * intros Hf. rewrite !Forall_app, !Forall_cons.
        intros (Hb & Hk0 & Hws).
        assert (rs_failed (res w1) = rs_failed (res w))
          by (destruct Hg as (_ & ? & _); lia).
        split; [|split].
        -- eapply Forall_impl; [exact Hb|]. intros k0.
           by apply handled_recorded_grows.
        -- by apply Hk.
        -- eapply Forall_impl; [exact Hws|]. intros k0.
           by apply handled_recorded_grows.
    + specialize (IH (before ++ [k]) H H0).
      by rewrite <- !app_assoc in IH.
Qed.

Lemma run_schedule_grows envs cfg um schedule ws w ws' w' :
  run_schedule envs cfg um schedule ws w = Some (ws', w') ->
  0 <= rs_failed (res w) ->
  grows w w'
  /\ map wk_urls ws' = map wk_urls ws
  /\ (rs_failed (res w') = 0 ->
      Forall (handled_recorded w) ws -> Forall (handled_recorded w') ws').
Proof.
  revert ws w. induction schedule as [|d schedule IH]; intros ws w H H0.
  - injection H as <- <-. split; [apply grows_refl | done].
  - cbn [run_schedule] in H.
    destruct (step_domain envs cfg um d [] ws w) as [[ws1 w1]|] eqn:E1; [|done].
    destruct (step_domain_grows _ _ _ _ _ _ _ _ _ E1 H0) as (Hg1 & Hu1 & Hk1).
    assert (H1 : 0 <= rs_failed (res w1)) by (destruct Hg1 as (_ & ? & _); lia).
    destruct (IH _ _ H H1) as (Hg2 & Hu2 & Hk2).
    split; [by eapply grows_trans|]. split; [by rewrite Hu2, Hu1|].
    intros Hf Hall. apply Hk2; [done|]. apply Hk1; [|done].
    destruct Hg2 as (_ & ? & _). lia.
Qed.

Lemma dict_get_In d l q : dict_get d l = Some q -> In (d, q) l.
Proof.
  induction l as [|[k vs] l IH]; simpl; [done|].
  destruct (decide (d = k)) as [->|_]; [intros [= ->]; by left | auto].
Qed.

(** Every candidate that is to be fetched is in the queue of a
    worker. *)
Lemma new_url_in_queue urls u :
  In u urls ->
  exists q, In q (map wk_urls (start_workers (group_urls_by_domain urls)))
            /\ In u q.
Proof.
  intros Hu.
  assert (Hq : In u (domain_queue (get_domain (url u)) urls)).
  { unfold domain_queue. apply List.filter_In. split; [done|].
    by apply bool_decide_eq_true. }
  pose proof (group_urls_by_domain_get urls (get_domain (url u))) as Hg.
  destruct (domain_queue (get_domain (url u)) urls) as [|x q] eqn:Eq; [done|].
  exists (x :: q). split; [|done].
  apply dict_get_In in Hg. unfold start_workers. rewrite map_map. cbn.
  apply in_map_iff. by exists (get_domain (url u), x :: q).
Qed.

End run_completeness.

Section second_run.
Import PyStr Partition Archive Fetch Scheduler.

(** A run without limit that returns without a failure has recorded
    every candidate, and what it recorded is in the registry file. *)
Lemma run_without_failure_records_all envs cfg um schedule all_urls w r w' :
  run_scraper_async envs cfg false None um schedule all_urls w
  = Some (RunReturns r w') ->
  rs_failed r = 0 ->
  (forall u, In u all_urls -> recorded w' u) /\ (persisted w -> persisted w').
Proof.
  unfold run_scraper_async, plan_run, apply_limit.
  set (new_urls := filter_new_urls all_urls (reg w)).
  assert (Hnew : forall u, In u all_urls -> recorded w u \/ In u new_urls).
  { intros u Hu. unfold recorded, new_urls, filter_new_urls.
    destruct (scraped_urls (reg w) !! url u) as [e|] eqn:E.
    - left. by eexists.
    - right. apply List.filter_In. split; [done|].
      by apply bool_decide_eq_true. }
  destruct new_urls as [|x l] eqn:En.
  { intros [= <- <-] _. split; [|done].
    intros u Hu. by destruct (Hnew u Hu). }
  rewrite <- En in *. clear En x l.
  set (w0 := World _ _ _ _ _ _ _).
  destruct (run_schedule envs cfg um schedule _ w0) as [[ws w1]|] eqn:Er; [|done].
  destruct (first_crash ws); [done|].
  destruct (forallb is_closed ws) eqn:Ec; [|done].
  intros [= <- <-] Hf.
  destruct (run_schedule_grows _ _ _ _ _ _ _ _ Er) as (Hg & Hu & Hk); [done|].
  assert (Hall : Forall (handled_recorded w1) ws).
  { apply Hk; [done|]. apply List.Forall_forall. intros k Hk0.
    apply in_map_iff in Hk0 as (dq & <- & _).
    intros j u Hj. unfold handled in Hj. cbn in Hj. lia. }
  split.
  - intros u Hin. destruct (Hnew u Hin) as [Hrec|Hin'].
    + destruct Hg as [Hg _]. by apply Hg.
    + destruct (new_url_in_queue _ _ Hin') as (q & Hq & Huq).
      rewrite <- Hu in Hq. apply in_map_iff in Hq as (k & <- & Hkin).
      rewrite List.Forall_forall in Hall. specialize (Hall k Hkin).
      rewrite forallb_forall in Ec. specialize (Ec k Hkin).
      apply list_elem_of_In, list_elem_of_lookup in Huq as [j Hj].
      apply (Hall j u); [|done].
      unfold is_closed in Ec. unfold handled.
      destruct (wk_phase k); try done.
      by eapply lookup_lt_Some.
  - destruct Hg as (_ & _ & Hp). exact Hp.
Qed.

(** C8, as amended.  Every URL that the registry records is filtered
    out before any fetch.  So after a first run, without limit, that
    returned without a failure, a second run on the same candidates,
    with the registry read back from its file, starts no worker,
    whatever the network does: it returns zero counts and leaves the
    archive and the registry as they are.  (A URL whose fetch failed is
    not recorded and is fetched again.) *)
Theorem second_run_after_complete_first_run :
  (forall urls r u,
     In u (filter_new_urls urls r) -> scraped_urls r !! url u = None)
  /\ (forall envs cfg um schedule all_urls w r1 w1,
        persisted w ->
        run_scraper_async envs cfg false None um schedule all_urls w
        = Some (RunReturns r1 w1) ->
        rs_failed r1 = 0 ->
        forall envs2 cfg2 dry_run2 limit2 um2 schedule2,
          run_scraper_async envs2 cfg2 dry_run2 limit2 um2 schedule2
            all_urls (restart w1)
          = Some (RunReturns no_results (restart w1))
          /\ news (restart w1) = news w1
          /\ reg (restart w1) = reg w1).
Proof.
  split; [apply filter_new_urls_unrecorded|].
  intros envs cfg um schedule all_urls w r1 w1 Hp Hrun Hf
         envs2 cfg2 dry_run2 limit2 um2 schedule2.
  destruct (run_without_failure_records_all _ _ _ _ _ _ _ _ Hrun Hf)
    as [Hall Hp1].
  specialize (Hp1 Hp).
  split; [|split; [done | exact Hp1]].
  apply run_all_recorded. intros u Hu.
  unfold restart. cbn [reg]. rewrite Hp1. by apply Hall.
Qed.

End second_run.

Section second_run_witness.
Import PyStr Partition Archive Fetch Scheduler Samples.

Lemma second_run_after_complete_first_run_witness :
  persisted fresh_world
  /\ exists w1,
       run_scraper_async (fun _ _ => env_always (Ret long_page))
         (cfg_retries 3) false None true (replicate 4 "a.example")
         [foo_x; foo_y] fresh_world
       = Some (RunReturns (Results 2 0 []) w1)
       /\ archive_dirs (news w1) = [("bbc", "foo-1"); ("bbc", "foo")]
       /\ run_scraper_async (fun _ _ => env_always (Raise connection_error))
            (cfg_retries 0) false None true (replicate 4 "a.example")
            [foo_x; foo_y] (restart w1)
          = Some (RunReturns no_results (restart w1))
       /\ news (restart w1) = news w1
       /\ reg (restart w1) = reg w1.
Proof.
  split; [reflexivity|].
  eexists. split; [vm_compute; reflexivity|].
  split; [vm_compute; reflexivity|].
  eapply (proj2 second_run_after_complete_first_run
            (fun _ _ => env_always (Ret long_page)) (cfg_retries 3) true
            (replicate 4 "a.example") [foo_x; foo_y] fresh_world).
  - reflexivity.
  - vm_compute. reflexivity.
  - reflexivity.
Defined.

End second_run_witness.

(** ** A worker under [gather] is [scrape_domain_queue] *)

Section worker_refinement.
Import PyStr Partition Archive Fetch Scheduler.

Lemma step_single envs cfg um d urls p w :
  step_domain envs cfg um d [] [Worker d urls p] w
  = match worker_step envs cfg um [] (Worker d urls p) w with
    | Some (k', w') => Some ([k'], w')
    | None => None
    end.
Proof. cbn [step_domain wk_domain]. by rewrite decide_True. Qed.

Lemma running_queue envs cfg um d first tl rest i w w' :
  drop i (first :: tl) = rest ->
  queue_loop (envs d) cfg um (first :: tl)
    (delay_seconds (get_site_config (url first) cfg)) i rest w
  = Some (Ret tt, w') ->
  run_schedule envs cfg um (replicate (S (length rest)) d)
    [Worker d (first :: tl) (Running i)] w
  = Some ([Worker d (first :: tl) Closed],
          emit [EvCloseContext DomainContext] w').
Proof.
  revert i w. induction rest as [|ui rest IH]; intros i w Hd Hq.
  - injection Hq as <-.
    cbn [length replicate run_schedule]. rewrite step_single.
    cbn [worker_step wk_phase wk_urls wk_domain].
    assert (Hi : (first :: tl) !! i = None).
    { apply lookup_ge_None. apply drop_nil_inv in Hd. done. }
    by rewrite Hi.
  - assert (Hi : (first :: tl) !! i = Some ui).
    { rewrite <- (Nat.add_0_r i), <- lookup_drop, Hd. done. }
    assert (Hd' : drop (S i) (first :: tl) = rest).
    { rewrite (drop_S _ _ _ Hi) in Hd. by injection Hd. }
    cbn [queue_loop] in Hq.
    destruct (process_url (envs d i) cfg um (first :: tl) _ ui w)
      as [[[[]|e] w1]|] eqn:Ep; [|done..].
    cbn [length replicate run_schedule]. rewrite step_single.
    cbn [worker_step wk_phase wk_urls wk_domain]. rewrite Hi, Ep.
    by apply IH.
Qed.

(** The worker of the scheduler, moved once per step of its queue, does
    what [scrape_domain_queue] does. *)
Theorem worker_is_scrape_domain_queue envs cfg um d urls w w' :
  scrape_domain_queue (envs d) cfg um urls w = Some (Ret tt, w') ->
  run_schedule envs cfg um (replicate (length urls + 2) d)
    [Worker d urls Waiting] w
  = Some ([Worker d urls Closed], w').
Proof.
  unfold scrape_domain_queue. destruct urls as [|first tl]; [done|].
  destruct (queue_loop _ _ _ _ _ _ _ _) as [[[[]|e] w1]|] eqn:Eq; [|done..].
  intros [= <-].
  replace (length (first :: tl) + 2)%nat
    with (S (S (length (first :: tl)))) by lia.
  cbn [replicate run_schedule]. rewrite step_single.
  cbn [worker_step wk_phase wk_urls wk_domain active List.filter length].
  change (0 <? MAX_CONCURRENT_DOMAINS)%nat with true. cbv iota.
  by apply (running_queue envs cfg um d first tl (first :: tl) 0).
Qed.

End worker_refinement.

(** ** What the fetcher does release *)

Section release_positive.
Import PyStr Partition Fetch.









End release_positive.

(** ** Where the pauses of a worker fall *)

Section politeness_positive.
Import PyStr Partition Archive Fetch Scheduler.









End politeness_positive.

(** * Further properties of the code *)

(** ** The fetcher follows its strategy table *)

Section strategy_chain.
Import PyStr Partition Fetch FetchChain.












End strategy_chain.

Section strategy_chain_theorems.
Import PyStr Partition Fetch FetchChain.




Lemma fetches_result_shape env ui cfg b r t res :
  fetches env ui cfg b r t res ->
  forall html ok, res = Ret (html, ok) ->
  if ok then fetched_content env html else html = EmptyString.
Proof.
  induction 1 as [r Hreq|r Hreq Huc|r e Hb Hp|r h Hb Hp Ht|r e Hb Hp Ht He
                 |r e Hb Hp Ht He Hm|r e evs res Hb Hp Ht He Hm F IH];
    intros html ok Hres; try (by injection Hres as <- <-); try done.
  - unfold scrape_with_requests in Hres. simpl in Hres.
    destruct (requests_get env) as [text|e] eqn:E;
      injection Hres as <- <-; [|done].
    right. by left.
  - unfold scrape_with_uc_inmedia in Hres.
    destruct (uc_chrome env); [by injection Hres as <- <-|].
    destruct (uc_load env) as [c|e] eqn:E; simpl in Hres;
      injection Hres as <- <-; [|done].
    right. by right.
  - injection Hres as <- <-. left. exists r.
    unfold try_body in Ht. destruct (load_page env r) as [h0|e]; [|done].
    destruct (_ <? _)%nat; [done|]. by injection Ht as ->.
  - by apply IH.
Qed.

(** X2.  A fetch returns content that an attempt received from the
    outside world, with [ok = true], or the empty string with
    [ok = false]: never content with [ok = false], never content of
    its own making. *)
Theorem fetch_result_shape env ui cfg r b :
  exists t res,
    scrape_url_async env ui cfg r b = Some (t, res)
    /\ forall html ok, res = Ret (html, ok) ->
         if ok then fetched_content env html else html = EmptyString.
Proof.
  destruct (scrape_url_async_total env ui cfg r b) as [[t res] H].
  exists t, res. split; [done|].
  by eapply fetches_result_shape, scrape_fetches.
Qed.

End strategy_chain_theorems.

Section release_witness.
Import PyStr Partition Fetch Samples.


End release_witness.

(** ** The archive store only grows *)

Section archive_growth.
Import Slug Archive ArchiveLookup.

Lemma nth_name_inj slug : Inj (=) (=) (nth_name slug).
Proof.
  intros [|m] [|n] H; simpl in H; try done.
  - symmetry in H. by apply suffixed_ne_slug in H.
  - by apply suffixed_ne_slug in H.
  - by apply (inj (suffixed slug)) in H.
Qed.

(** The two ways [save_archive] ends when the source directory
    exists. *)
Lemma save_archive_cases ui html now dir (news : news_dir) name created news' :
  save_archive ui html now dir news = Some (Ret (name, created), news') ->
  exists oa n,
    news !! dir = Some oa
    /\ name = nth_name (slugify (title ui) default_max_length) n
    /\ (forall k, (k < n)%nat ->
          taken_by_other (default ∅ oa)
            (nth_name (slugify (title ui) default_max_length) k) (url ui))
    /\ if created
       then (default ∅ oa : archive) !! name = None
            /\ news' = <[dir := Some (<[name := written ui html now dir name]>
                                        (default ∅ oa))]> news
       else holds_url (default ∅ oa) name (url ui) /\ news' = news.
Proof.
  unfold save_archive. destruct (news !! dir) as [oa|] eqn:Hdir; [|done].
  destruct (save_at_spec (slugify (title ui) default_max_length)
              ui html now dir (default ∅ oa))
    as (n & c & a' & Hs & Hbefore & Hlast).
  rewrite Hs. intros [= <- <- <-]. exists oa, n.
  split; [done|]. split; [done|]. split; [done|].
  destruct c.
  - destruct Hlast as [Hfree ->]. done.
  - destruct Hlast as [[f [Hf Hu]] ->]. split; [by exists f|].
    apply insert_id. rewrite Hdir. f_equal.
    destruct oa as [a0|]; [done|]. simpl in Hf. by rewrite lookup_empty in Hf.
Qed.

Lemma keeps_directories_refl (a : archive) : keeps_directories a a.
Proof. by intros name f H. Qed.

Lemma save_archive_records ui html now dir (news : news_dir)
    name created news' :
  save_archive ui html now dir news = Some (Ret (name, created), news') ->
  exists a' : archive,
    news' !! dir = Some (Some a') /\ holds_url a' name (url ui).
Proof.
  intros H.
  destruct (save_archive_cases _ _ _ _ _ _ _ _ H)
    as (oa & n & Hdir & _ & _ & Hend).
  destruct created.
  - destruct Hend as [Hfree ->].
    eexists. rewrite lookup_insert_eq. split; [done|].
    eexists. rewrite lookup_insert_eq. by split.
  - destruct Hend as [Hholds ->].
    destruct Hholds as (f & Hf & Hu).
    destruct oa as [a|]; [|simpl in Hf; by rewrite lookup_empty in Hf].
    exists a. split; [done | by exists f].
Qed.

Lemma save_archive_keeps ui html now dir (news : news_dir)
    name created news' :
  save_archive ui html now dir news = Some (Ret (name, created), news') ->
  forall d (a : archive),
    news !! d = Some (Some a) ->
    exists a' : archive,
      news' !! d = Some (Some a') /\ keeps_directories a a'.
Proof.
  intros H.
  destruct (save_archive_cases _ _ _ _ _ _ _ _ H)
    as (oa & n & Hdir & _ & _ & Hend).
  destruct created.
  - destruct Hend as [Hfree ->].
    intros d a Hd. destruct (decide (d = dir)) as [->|Hne].
    + rewrite Hdir in Hd. injection Hd as ->. simpl in Hfree.
      eexists. rewrite lookup_insert_eq. split; [done|].
      intros k f Hk. rewrite lookup_insert_ne; [done|].
      intros <-. by rewrite Hfree in Hk.
    + exists a. rewrite lookup_insert_ne by done.
      split; [done | apply keeps_directories_refl].
  - destruct Hend as [_ ->]. intros d a Hd. exists a.
    split; [done | apply keeps_directories_refl].
Qed.

(** X4.  [save_archive] never removes or overwrites an article
    directory: every directory of every source is still there, with
    the same content, after the call; and the directory it returns
    records the URL of the candidate, whether it was made by this call
    or found. *)
Theorem save_archive_keeps_and_records ui html now dir (news : news_dir)
    name created news' :
  save_archive ui html now dir news = Some (Ret (name, created), news') ->
  (forall d (a : archive),
     news !! d = Some (Some a) ->
     exists a' : archive,
       news' !! d = Some (Some a') /\ keeps_directories a a')
  /\ exists a' : archive,
       news' !! dir = Some (Some a') /\ holds_url a' name (url ui).
Proof.
  intros H. split.
  - by eapply save_archive_keeps.
  - by eapply save_archive_records.
Qed.

(** The first name that is free or records the URL is the one
    [choose_dir] finds. *)
Lemma choose_dir_found (a : archive) slug u n :
  (forall k, (k < n)%nat -> taken_by_other a (nth_name slug k) u) ->
  holds_url a (nth_name slug n) u ->
  choose_dir a slug u = Some (nth_name slug n, false).
Proof.
  intros Hbefore (f & Hf & Hu).
  destruct (choose_dir_spec a slug u) as (m & c & -> & Hb & Hl).
  destruct (Nat.lt_trichotomy m n) as [Hlt|[->|Hgt]].
  - destruct (Hbefore m Hlt) as (g & Hg & Hne). destruct c.
    + by rewrite Hg in Hl.
    + destruct Hl as (g' & Hg' & Hu'). rewrite Hg in Hg'.
      injection Hg' as <-. done.
  - destruct c; [by rewrite Hf in Hl | done].
  - destruct (Hb n Hgt) as (g & Hg & Hne). rewrite Hf in Hg.
    injection Hg as <-. done.
Qed.

(** X5.  Saving is idempotent: after [save_archive] has returned a
    directory for a candidate, saving the same candidate again, with
    whatever content, returns the same directory with
    [created = false] and writes nothing. *)
Theorem save_archive_again ui html now dir (news : news_dir)
    name created news' :
  save_archive ui html now dir news = Some (Ret (name, created), news') ->
  forall html2 now2,
    save_archive ui html2 now2 dir news' = Some (Ret (name, false), news').
Proof.
  intros H html2 now2.
  destruct (save_archive_cases _ _ _ _ _ _ _ _ H)
    as (oa & n & Hdir & -> & Hbefore & Hend).
  set (slug := slugify (title ui) default_max_length) in *.
  assert (Hafter : exists a' : archive,
    news' !! dir = Some (Some a')
    /\ (forall k, (k < n)%nat -> taken_by_other a' (nth_name slug k) (url ui))
    /\ holds_url a' (nth_name slug n) (url ui)).
  { destruct created.
    - destruct Hend as [Hfree ->]. eexists.
      rewrite lookup_insert_eq. split; [done|]. split.
      + intros k Hk. destruct (Hbefore k Hk) as (g & Hg & Hne).
        exists g. split; [|done]. rewrite lookup_insert_ne; [done|].
        intros E. apply nth_name_inj in E. lia.
      + eexists. rewrite lookup_insert_eq. by split.
    - destruct Hend as [Hholds ->].
      destruct oa as [a|].
      + exists a. by split.
      + destruct Hholds as (f & Hf & _). simpl in Hf.
        by rewrite lookup_empty in Hf. }
  destruct Hafter as (a' & Hd' & Hb' & Hh').
  unfold save_archive, save_at. rewrite Hd'. simpl. fold slug.
  rewrite (choose_dir_found a' slug (url ui) n Hb' Hh').
  f_equal. f_equal. by apply insert_id.
Qed.

Lemma find_archive_dir_some dir u (news : news_dir) name :
  find_archive_dir_for_url dir u news = Some name ->
  exists a : archive, news !! dir = Some (Some a) /\ holds_url a name u.
Proof.
  unfold find_archive_dir_for_url.
  destruct (news !! dir) as [[a|]|]; [|done..].
  destruct (List.find _ _) as [[n f]|] eqn:E; [|done].
  intros [= <-]. apply List.find_some in E as [Hin Hu].
  apply bool_decide_eq_true in Hu. exists a. split; [done|].
  exists f. split; [|done].
  by apply elem_of_map_to_list, list_elem_of_In.
Qed.

Lemma find_archive_dir_none dir u (news : news_dir) (a : archive) name :
  find_archive_dir_for_url dir u news = None ->
  news !! dir = Some (Some a) -> ~ holds_url a name u.
Proof.
  unfold find_archive_dir_for_url. intros H Hd (f & Hf & Hu).
  rewrite Hd in H.
  destruct (List.find _ _) as [nf|] eqn:E; [done|].
  assert (Hin : In (name, f) (map_to_list a))
    by (by apply list_elem_of_In, elem_of_map_to_list).
  pose proof (List.find_none _ _ E (name, f) Hin) as Hno.
  apply bool_decide_eq_false in Hno. by apply Hno.
Qed.

(** X6.  [find_archive_dir_for_url] returns a directory only if its
    metadata records the URL, and returns none only if no directory of
    the source does.  What [save_archive] stores it finds: after a save
    the search for the URL of the candidate returns a directory that
    records this URL, the directory of the save when no other one
    records it. *)
Theorem find_archive_dir_for_url_finds :
  (forall dir u (news : news_dir) name,
     find_archive_dir_for_url dir u news = Some name ->
     exists a : archive, news !! dir = Some (Some a) /\ holds_url a name u)
  /\ (forall dir u (news : news_dir) (a : archive),
        news !! dir = Some (Some a) ->
        find_archive_dir_for_url dir u news = None ->
        forall name, ~ holds_url a name u)
  /\ (forall ui html now dir (news : news_dir) name created news',
        save_archive ui html now dir news
        = Some (Ret (name, created), news') ->
        exists found (a' : archive),
          find_archive_dir_for_url dir (url ui) news' = Some found
          /\ news' !! dir = Some (Some a')
          /\ holds_url a' found (url ui)
          /\ ((forall other, holds_url a' other (url ui) -> other = name) ->
              found = name)).
Proof.
  split; [apply find_archive_dir_some|]. split.
  { intros dir u news a Hd Hn name. by eapply find_archive_dir_none. }
  intros ui html now dir news name created news' H.
  destruct (save_archive_records _ _ _ _ _ _ _ _ H) as (a' & Hd & Hh).
  destruct (find_archive_dir_for_url dir (url ui) news') as [found|] eqn:E.
  - destruct (find_archive_dir_some _ _ _ _ E) as (a'' & Hd' & Hh').
    rewrite Hd in Hd'. injection Hd' as <-.
    exists found, a'. repeat split; try done. intros Huniq. by apply Huniq.
  - exfalso. by apply (find_archive_dir_none _ _ _ a' name E Hd).
Qed.

End archive_growth.

Section archive_growth_witnesses.
Import Slug Archive ArchiveLookup Samples.

Lemma save_archive_keeps_and_records_witness :
  exists news' : news_dir,
    save_archive foo_x "<html>x</html>" 0%nat "bbc" news_bbc
    = Some (Ret ("foo", true), news')
    /\ (forall d (a : archive),
          news_bbc !! d = Some (Some a) ->
          exists a' : archive,
            news' !! d = Some (Some a') /\ keeps_directories a a')
    /\ exists a' : archive,
         news' !! "bbc" = Some (Some a') /\ holds_url a' "foo" (url foo_x).
Proof.
  eexists. split; [vm_compute; reflexivity|].
  apply (save_archive_keeps_and_records foo_x "<html>x</html>" 0%nat "bbc"
           news_bbc "foo" true).
  vm_compute. reflexivity.
Defined.

Lemma save_archive_again_witness :
  exists news' : news_dir,
    save_archive foo_x "<html>x</html>" 0%nat "bbc" news_bbc
    = Some (Ret ("foo", true), news')
    /\ save_archive foo_x "<html>other</html>" 7%nat "bbc" news'
       = Some (Ret ("foo", false), news').
Proof.
  eexists. split; [vm_compute; reflexivity|].
  apply (save_archive_again foo_x "<html>x</html>" 0%nat "bbc" news_bbc
           "foo" true).
  vm_compute. reflexivity.
Defined.

Lemma find_archive_dir_for_url_finds_witness :
  exists news' : news_dir,
    save_archive foo_x "<html>x</html>" 0%nat "bbc" news_bbc
    = Some (Ret ("foo", true), news')
    /\ exists found (a' : archive),
         find_archive_dir_for_url "bbc" (url foo_x) news' = Some found
         /\ news' !! "bbc" = Some (Some a')
         /\ holds_url a' found (url foo_x)
         /\ ((forall other, holds_url a' other (url foo_x) -> other = "foo") ->
             found = "foo").
Proof.
  eexists. split; [vm_compute; reflexivity|].
  apply (proj2 (proj2 find_archive_dir_for_url_finds)
           foo_x "<html>x</html>" 0%nat "bbc" news_bbc "foo" true).
  vm_compute. reflexivity.
Defined.

End archive_growth_witnesses.

(** ** The partition loses nothing *)

Section partition_complete.
Import PyStr Partition.

Lemma dict_append_keys k v acc :
  map fst (dict_append k v acc)
  = if bool_decide (k ∈ map fst acc) then map fst acc
    else map fst acc ++ [k].
Proof.
  induction acc as [|[k' vs] acc IH]; simpl; [done|].
  destruct (decide (k = k')) as [->|Hne]; simpl.
  - rewrite bool_decide_eq_true_2; [done | by left].
  - rewrite IH. destruct (bool_decide (k ∈ map fst acc)) eqn:E.
    + apply bool_decide_eq_true in E.
      rewrite bool_decide_eq_true_2; [done | by right].
    + apply bool_decide_eq_false in E.
      rewrite bool_decide_eq_false_2; [done|].
      by intros [?|?]%elem_of_cons.
Qed.

Lemma dict_append_NoDup k v acc :
  NoDup (map fst acc) -> NoDup (map fst (dict_append k v acc)).
Proof.
  intros H. rewrite dict_append_keys.
  destruct (bool_decide (k ∈ map fst acc)) eqn:E; [done|].
  apply bool_decide_eq_false in E.
  apply NoDup_app. split; [done|]. split; [|apply NoDup_singleton].
  by intros x Hx ->%list_elem_of_singleton.
Qed.

Lemma dict_append_concat k v acc :
  concat (map snd (dict_append k v acc)) ≡ₚ v :: concat (map snd acc).
Proof.
  induction acc as [|[k' vs] acc IH]; simpl; [done|].
  destruct (decide (k = k')); simpl.
  - rewrite <- app_assoc. simpl.
    by rewrite <- Permutation_middle.
  - rewrite IH. by rewrite <- Permutation_middle.
Qed.

Lemma group_fold_NoDup urls acc :
  NoDup (map fst acc) ->
  NoDup (map fst
    (foldl (fun grouped u => dict_append (get_domain (url u)) u grouped)
           acc urls)).
Proof.
  revert acc. induction urls as [|u urls IH]; intros acc H; simpl; [done|].
  by apply IH, dict_append_NoDup.
Qed.

Lemma group_fold_concat urls acc :
  concat (map snd
    (foldl (fun grouped u => dict_append (get_domain (url u)) u grouped)
           acc urls))
  ≡ₚ concat (map snd acc) ++ urls.
Proof.
  revert acc. induction urls as [|u urls IH]; intros acc; simpl.
  - by rewrite app_nil_r.
  - rewrite IH, dict_append_concat. by rewrite <- Permutation_middle.
Qed.

Lemma dict_get_of_In d q l :
  NoDup (map fst l) -> In (d, q) l -> dict_get d l = Some q.
Proof.
  induction l as [|[k vs] l IH]; simpl; [done|].
  intros Hnd [[= -> ->]|Hin].
  - by rewrite decide_True.
  - apply NoDup_cons in Hnd as [Hk Hnd].
    rewrite decide_False; [by apply IH|].
    intros ->. apply Hk. apply list_elem_of_In, in_map_iff.
    by exists (k, q).
Qed.

(** X7.  [group_urls_by_domain] loses no candidate and makes none up:
    the queues together are the input list rearranged; each domain has
    one queue, which is not empty and holds exactly the candidates of
    that domain in their input order. *)
Theorem group_urls_by_domain_partitions urls :
  NoDup (map fst (group_urls_by_domain urls))
  /\ concat (map snd (group_urls_by_domain urls)) ≡ₚ urls
  /\ forall d q,
       In (d, q) (group_urls_by_domain urls) ->
       q <> [] /\ q = domain_queue d urls.
Proof.
  assert (Hnd : NoDup (map fst (group_urls_by_domain urls)))
    by (apply group_fold_NoDup, NoDup_nil_2).
  split; [done|]. split.
  - unfold group_urls_by_domain. by rewrite group_fold_concat.
  - intros d q Hin.
    pose proof (dict_get_of_In _ _ _ Hnd Hin) as Hget.
    rewrite group_urls_by_domain_get in Hget.
    destruct (domain_queue d urls) as [|x l]; [done|].
    injection Hget as <-. done.
Qed.

End partition_complete.

(** ** A slug is its own slug *)

Section slugify_fixpoint.
Import PyStr Slug.

Lemma slug_char_cases c :
  slug_char c = true ->
  is_upper c = false /\ keep_char c = true /\ is_sep c = is_hyphen c.
Proof.
  destruct c as [[] [] [] [] [] [] [] []]; vm_compute;
    (discriminate || (intros _; repeat split)).
Qed.

Lemma lower_slug l : forallb slug_char l = true -> lower l = l.
Proof.
  induction l as [|c l IH]; simpl; [done|].
  intros [Hc Hl]%andb_true_iff.
  destruct (slug_char_cases c Hc) as (Hu & _ & _).
  unfold lower_char. rewrite Hu. f_equal. by apply IH.
Qed.

Lemma sub_non_word_slug l : forallb slug_char l = true -> sub_non_word l = l.
Proof.
  induction l as [|c l IH]; simpl; [done|].
  intros [Hc Hl]%andb_true_iff.
  destruct (slug_char_cases c Hc) as (_ & Hk & _).
  unfold sub_non_word in *. simpl. rewrite Hk. f_equal. by apply IH.
Qed.

Lemma sub_sep_runs_slug b l :
  forallb slug_char l = true -> no_double_hyphen l = true ->
  (b = true -> first_not_hyphen l = true) ->
  sub_sep_runs b l = l.
Proof.
  revert b. induction l as [|c l IH]; intros b; simpl; [done|].
  intros [Hc Hl]%andb_true_iff [Hh Hn]%andb_true_iff Hb.
  destruct (slug_char_cases c Hc) as (_ & _ & Hs). rewrite Hs.
  destruct (is_hyphen c) eqn:E.
  - apply is_hyphen_eq in E as ->.
    destruct b; [by specialize (Hb eq_refl)|].
    f_equal. apply IH; done.
  - f_equal. apply IH; done.
Qed.

Lemma lstrip_hyphen_fixed l : first_not_hyphen l = true -> lstrip_hyphen l = l.
Proof. destruct l as [|c l]; simpl; [done|]. by intros ->%negb_true_iff. Qed.

Lemma rstrip_hyphen_fixed l : last_not_hyphen l = true -> rstrip_hyphen l = l.
Proof.
  unfold last_not_hyphen.
  induction l as [|c l IH]; simpl; [done|].
  destruct l as [|c' l'].
  - simpl. by intros ->%negb_true_iff.
  - intros H. rewrite IH; done.
Qed.

Lemma normalized_fixed l : shaped l -> normalized (of_chars l) = l.
Proof.
  intros (Hc & Hn & Hf & Hl). unfold normalized, normalize_NFKD, strip_hyphen.
  rewrite chars_of_chars, lower_slug, sub_non_word_slug by done.
  rewrite sub_sep_runs_slug by done.
  rewrite lstrip_hyphen_fixed by done. by apply rstrip_hyphen_fixed.
Qed.

(** X8.  For a [max_length] of at least 8 a slug is its own slug:
    [slugify] applied to its result returns it unchanged. *)
Theorem slugify_idempotent (text : string) (max_length : Z) :
  8 <= max_length ->
  slugify (slugify text max_length) max_length = slugify text max_length.
Proof.
  intros Hmax.
  pose proof (truncated_shaped max_length _ (normalized_shaped text)) as Hs.
  pose proof (truncated_length max_length (normalized text)) as Hlen.
  unfold slugify at 2 3.
  destruct (truncated max_length (normalized text)) as [|c t] eqn:E.
  - unfold slugify.
    replace (normalized "untitled") with (chars "untitled")
      by (vm_compute; reflexivity).
    unfold truncated.
    destruct (Z.gtb_spec (Z.of_nat (length (chars "untitled"))) max_length)
      as [Hgt|Hle]; [simpl in Hgt; lia | done].
  - unfold slugify. rewrite normalized_fixed by done.
    unfold truncated.
    destruct (Z.gtb_spec (Z.of_nat (length (c :: t))) max_length)
      as [Hgt|Hle]; [lia | done].
Qed.

Lemma slugify_idempotent_witness :
  8 <= 80
  /\ slugify (slugify "Fire at Wang Fuk Court -- day 2!" 80) 80
     = slugify "Fire at Wang Fuk Court -- day 2!" 80.
Proof.
  split; [lia|].
  apply (slugify_idempotent "Fire at Wang Fuk Court -- day 2!" 80). lia.
Defined.

End slugify_fixpoint.

(** ** The moves of a run, one at a time *)

Section run_moves.
Import PyStr Partition Archive Fetch Scheduler RunLedger.

(** A move of the schedule changes at most one worker. *)
Lemma step_domain_cases envs cfg um d before ws w ws' w' :
  step_domain envs cfg um d before ws w = Some (ws', w') ->
  (ws' = before ++ ws /\ w' = w)
  \/ exists l1 k l2 k',
       ws = l1 ++ k :: l2 /\ ws' = before ++ l1 ++ k' :: l2
       /\ worker_step envs cfg um (before ++ l1 ++ l2) k w = Some (k', w').
Proof.
  revert before. induction ws as [|k0 ws IH]; intros before H.
  - injection H as <- <-. left. by rewrite app_nil_r.
  - cbn [step_domain] in H.
    destruct (decide (wk_domain k0 = d)) as [_|_].
    + destruct (worker_step envs cfg um (before ++ ws) k0 w)
        as [[k' w1]|] eqn:E; [|done].
      injection H as <- <-. right. by exists [], k0, ws, k'.
    + apply IH in H as [[-> ->]|(l1 & k & l2 & k' & -> & -> & Hs)].
      * left. by rewrite <- app_assoc.
      * right. exists (k0 :: l1), k, l2, k'.
        rewrite <- !app_assoc in *. done.
Qed.

(** The moves of one worker. *)
Lemma worker_step_cases envs cfg um others k w k' w' :
  worker_step envs cfg um others k w = Some (k', w') ->
  wk_urls k' = wk_urls k
  /\ ((k' = k /\ w' = w)
      \/ (wk_phase k = Waiting
          /\ (active others < MAX_CONCURRENT_DOMAINS)%nat
          /\ w' = emit [EvNewContext DomainContext] w
          /\ (wk_phase k' = Running 0 \/ exists e, wk_phase k' = Crashed e))
      \/ (exists i ui first rest r,
            wk_phase k = Running i
            /\ wk_urls k !! i = Some ui
            /\ wk_urls k = first :: rest
            /\ process_url (envs (wk_domain k) i) cfg um (wk_urls k)
                 (delay_seconds (get_site_config (url first) cfg)) ui w
               = Some (r, w')
            /\ wk_phase k' = match r with
                             | Ret _ => Running (S i)
                             | Raise e => Crashed e
                             end)
      \/ (exists i,
            wk_phase k = Running i
            /\ (length (wk_urls k) <= i)%nat
            /\ wk_phase k' = Closed
            /\ w' = emit [EvCloseContext DomainContext] w)).
Proof.
  unfold worker_step.
  destruct (wk_phase k) as [|i| |e] eqn:Ep.
  - destruct (Nat.ltb_spec (active others) MAX_CONCURRENT_DOMAINS).
    + destruct (wk_urls k) as [|u0 l0] eqn:Eu; intros [= <- <-];
        (split; [done|]); right; left; (repeat split; try done);
        [right; by eexists | by left].
    + intros [= <- <-]. split; [done | by left].
  - destruct (wk_urls k !! i) as [ui|] eqn:Ei.
    + destruct (wk_urls k) as [|first rest] eqn:Eu; [done|].
      destruct (process_url _ _ _ _ _ _ _) as [[r w1]|] eqn:Epr; [|done].
      intros H.
      assert (k' = Worker (wk_domain k) (first :: rest)
                     match r with
                     | Ret _ => Running (S i)
                     | Raise e => Crashed e
                     end /\ w' = w1) as [-> ->].
      { destruct r; by injection H as <- <-. }
      split; [done|]. right. right. left.
      by exists i, ui, first, rest, r.
    + intros H.
      assert (H' : Some (Worker (wk_domain k) (wk_urls k) Closed,
                        emit [EvCloseContext DomainContext] w) = Some (k', w')).
      { by destruct (wk_urls k). }
      injection H' as <- <-. split; [done|]. right. right. right.
      exists i. apply lookup_ge_None in Ei. done.
  - intros [= <- <-]. split; [done | by left].
  - intros [= <- <-]. split; [done | by left].
Qed.

Lemma active_app l1 l2 : active (l1 ++ l2) = (active l1 + active l2)%nat.
Proof. unfold active. by rewrite List.filter_app, length_app. Qed.

Lemma active_cons k l :
  active (k :: l) = ((if is_running k then 1 else 0) + active l)%nat.
Proof. unfold active. simpl. by destruct (is_running k). Qed.

Lemma active_start_workers domains : active (start_workers domains) = 0%nat.
Proof.
  induction domains as [|d domains IH]; [done|].
  unfold start_workers in *. rewrite map_cons, active_cons. by rewrite IH.
Qed.

Lemma step_domain_active envs cfg um d ws w ws' w' :
  step_domain envs cfg um d [] ws w = Some (ws', w') ->
  (active ws <= MAX_CONCURRENT_DOMAINS)%nat ->
  (active ws' <= MAX_CONCURRENT_DOMAINS)%nat.
Proof.
  intros H Ha.
  apply step_domain_cases in H as [[-> ->]|(l1 & k & l2 & k' & -> & -> & Hs)];
    [done|].
  rewrite app_nil_l in Hs. rewrite app_nil_l.
  rewrite active_app, active_cons in Ha. rewrite active_app, active_cons.
  apply worker_step_cases in Hs
    as (_ & [[-> ->]|[(Hp & Hlt & _ & Hk')
                     |[(i & ui & f & rest & r & Hp & _ & _ & _ & Hk')
                      |(i & Hp & _ & Hk' & _)]]]).
  - done.
  - rewrite active_app in Hlt. unfold is_running in *. rewrite Hp in Ha.
    destruct Hk' as [->|[e ->]]; lia.
  - unfold is_running in *. rewrite Hp in Ha. rewrite Hk'. destruct r; lia.
  - unfold is_running in *. rewrite Hp in Ha. rewrite Hk'. lia.
Qed.

(** X9.  Whatever the order in which the domain workers get their
    turns, and however long the run has lasted, at most
    [MAX_CONCURRENT_DOMAINS] of them are between acquiring and
    releasing the semaphore. *)
Theorem at_most_five_domains_at_once envs cfg um schedule domains w :
  exists ws' w',
    run_schedule envs cfg um schedule (start_workers domains) w
    = Some (ws', w')
    /\ (active ws' <= MAX_CONCURRENT_DOMAINS)%nat.
Proof.
  assert (H0 : (active (start_workers domains) <= MAX_CONCURRENT_DOMAINS)%nat).
  { rewrite active_start_workers. unfold MAX_CONCURRENT_DOMAINS. lia. }
  revert H0. generalize (start_workers domains) as ws. revert w.
  induction schedule as [|d schedule IH]; intros w ws H0.
  - by exists ws, w.
  - cbn [run_schedule].
    destruct (step_domain_total envs cfg um d [] ws w) as [[ws1 w1] E].
    rewrite E. apply IH. by eapply step_domain_active.
Qed.

End run_moves.

(** ** The books add up *)

Section run_books.
Import PyStr Partition Archive Fetch Scheduler RunLedger.

Lemma rate_limit_delay_books urls delay ui w r w' :
  rate_limit_delay urls delay ui w = (r, w') ->
  news w' = news w /\ reg w' = reg w /\ res w' = res w
  /\ progress_current w' = progress_current w.
Proof.
  unfold rate_limit_delay.
  destruct (list_index ui urls) as [i|]; [destruct (_ <? _)|];
    by intros [= <- <-].
Qed.

Lemma record_success_books um ui html w r w' :
  record_success um ui html w = Some (r, w') ->
  progress_current w' = progress_current w
  /\ ((r = Ret tt
       /\ rs_success (res w') = rs_success (res w) + 1
       /\ rs_failed (res w') = rs_failed (res w)
       /\ rs_failed_urls (res w') = rs_failed_urls (res w))
      \/ ((forall x, r <> Ret x) /\ res w' = res w)).
Proof.
  unfold record_success.
  destruct (save_archive _ _ _ _ _) as [[[[name created]|e] n']|]; [| |done].
  - intros [= <- <-]. split; [done|]. by left.
  - intros [= <- <-]. split; [done|]. by right.
Qed.

(** One loop turn in the books: the progress counter moves by one;
    the turn counts one success, and the URL is in the registry, or it
    counts one failure and lists the URL; a turn that raises before
    either counts nothing. *)
Lemma process_url_books env cfg um urls delay ui w r w' :
  process_url env cfg um urls delay ui w = Some (r, w') ->
  progress_current w' = progress_current w + 1
  /\ ((rs_success (res w') = rs_success (res w) + 1
       /\ rs_failed (res w') = rs_failed (res w)
       /\ rs_failed_urls (res w') = rs_failed_urls (res w)
       /\ recorded w' ui)
      \/ (rs_success (res w') = rs_success (res w)
          /\ rs_failed (res w') = rs_failed (res w) + 1
          /\ rs_failed_urls (res w') = rs_failed_urls (res w) ++ [url ui])
      \/ ((forall x, r <> Ret x) /\ res w' = res w)).
Proof.
  unfold process_url.
  destruct (scrape_url_async env ui cfg 0 true) as [[evs [[html ok]|e]]|];
    [| |done].
  - set (w2 := emit evs _).
    destruct (ok && negb (bool_decide (html = EmptyString))).
    + destruct (record_success um ui html w2) as [[[[]|e] w3]|] eqn:Es; [| |done].
      * destruct (record_success_books _ _ _ _ _ _ Es)
          as [Hp [(_ & Hs & Hf & Hl)|[Hne _]]]; [|by destruct (Hne tt)].
        destruct (record_success_grows _ _ _ _ _ _ Es) as [_ Hrec].
        intros [= H].
        destruct (rate_limit_delay_books _ _ _ _ _ _ H) as (_ & Hreg & Hres & Hpr).
        rewrite Hres, Hpr, Hp. split; [done|]. left.
        repeat split; try done.
        unfold recorded. rewrite Hreg. by apply Hrec.
      * intros [= <- <-].
        destruct (record_success_books _ _ _ _ _ _ Es)
          as [Hp [(? & _)|[_ Hres]]]; [done|].
        split; [by rewrite Hp|]. right. right. by rewrite Hres.
    + intros [= H].
      destruct (rate_limit_delay_books _ _ _ _ _ _ H) as (_ & Hreg & Hres & Hpr).
      rewrite Hres, Hpr. split; [done|]. right. by left.
  - intros [= <- <-]. split; [done|]. right. by right.
Qed.

Lemma accounted_emit evs w u : accounted w u -> accounted (emit evs w) u.
Proof. done. Qed.

(** Nothing leaves the books in a loop turn. *)
Lemma process_url_accounted env cfg um urls delay ui w r w' u :
  process_url env cfg um urls delay ui w = Some (r, w') ->
  accounted w u -> accounted w' u.
Proof.
  intros H [Hr|Hf].
  - left. destruct (process_url_grows _ _ _ _ _ _ _ _ _ H) as [[Hg _] _]. auto.
  - destruct (process_url_books _ _ _ _ _ _ _ _ _ H)
      as (_ & [(_ & _ & Hl & _)|[(_ & _ & Hl)|(_ & Hres)]]); right.
    + by rewrite Hl.
    + rewrite Hl. apply in_or_app. by left.
    + by rewrite Hres.
Qed.

(** The [for] loop of [scrape_domain_queue] from position [i] on. *)
Lemma queue_loop_books envs cfg um urls delay i rest w w' :
  queue_loop envs cfg um urls delay i rest w = Some (Ret tt, w') ->
  progress_current w' = progress_current w + Z.of_nat (length rest)
  /\ (forall u, recorded w u -> recorded w' u)
  /\ exists failed,
       sublist failed rest
       /\ rs_failed_urls (res w') = rs_failed_urls (res w) ++ map url failed
       /\ rs_failed (res w') = rs_failed (res w) + Z.of_nat (length failed)
       /\ rs_success (res w')
          = rs_success (res w) + Z.of_nat (length rest)
            - Z.of_nat (length failed)
       /\ forall u, In u rest -> recorded w' u \/ In u failed.
Proof.
  revert i w. induction rest as [|ui rest IH]; intros i w H.
  - injection H as <-. split; [simpl; lia|]. split; [done|].
    exists []. simpl. rewrite app_nil_r. repeat split; try done; lia.
  - cbn [queue_loop] in H.
    destruct (process_url (envs i) cfg um urls delay ui w)
      as [[[[]|e] w1]|] eqn:Ep; [|done..].
    destruct (IH _ _ H) as (Hp & Hmono & failed & Hsub & Hl & Hf & Hs & Hall).
    destruct (process_url_books _ _ _ _ _ _ _ _ _ Ep) as (Hp1 & Hcase).
    destruct (process_url_grows _ _ _ _ _ _ _ _ _ Ep) as [[Hg _] _].
    split; [rewrite Hp, Hp1; simpl length; lia|].
    split; [auto|].
    destruct Hcase as [(Hs1 & Hf1 & Hl1 & Hrec)|[(Hs1 & Hf1 & Hl1)|[Hne _]]];
      [| |by destruct (Hne tt)].
    + exists failed. split; [by apply sublist_cons|].
      rewrite Hl, Hf, Hs, Hl1, Hf1, Hs1.
      repeat split; try done; [simpl length; lia|].
      intros u [<-|Hin]; [left; by apply Hmono | by apply Hall].
    + exists (ui :: failed). split; [by apply sublist_skip|].
      rewrite Hl, Hf, Hs, Hl1, Hf1, Hs1. simpl length. simpl map.
      repeat split; try (by rewrite <- app_assoc); try lia.
      intros u [<-|Hin]; [right; by left|].
      destruct (Hall u Hin) as [?|?]; [by left | right; by right].
Qed.

(** X10.  A call of [scrape_domain_queue] that returns has counted
    every URL of its queue once: the progress counter has moved by the
    length of the queue, and so have the successes and the failures
    together; the URLs of the failures have been appended to the list
    of failed URLs in queue order; every URL of the queue is in the
    registry or among these failures; and no URL has left the
    registry. *)
Theorem scrape_domain_queue_counts_every_url envs cfg um urls w w' :
  scrape_domain_queue envs cfg um urls w = Some (Ret tt, w') ->
  progress_current w' = progress_current w + Z.of_nat (length urls)
  /\ (forall u, recorded w u -> recorded w' u)
  /\ exists failed,
       sublist failed urls
       /\ rs_failed_urls (res w') = rs_failed_urls (res w) ++ map url failed
       /\ rs_failed (res w') = rs_failed (res w) + Z.of_nat (length failed)
       /\ rs_success (res w')
          = rs_success (res w) + Z.of_nat (length urls)
            - Z.of_nat (length failed)
       /\ forall u, In u urls -> recorded w' u \/ In u failed.
Proof.
  unfold scrape_domain_queue. destruct urls as [|first rest]; [done|].
  destruct (queue_loop _ _ _ _ _ _ _ _) as [[[[]|e] w1]|] eqn:Eq; [|done..].
  intros [= <-]. apply queue_loop_books in Eq. exact Eq.
Qed.

End run_books.

(** ** The summary of a run *)

Section run_summary.
Import PyStr Partition Archive Fetch Scheduler RunLedger.

Lemma first_crash_app l1 k l2 :
  first_crash (l1 ++ k :: l2) = None <->
  first_crash l1 = None
  /\ (forall e, wk_phase k <> Crashed e)
  /\ first_crash l2 = None.
Proof.
  induction l1 as [|k1 l1 IH]; simpl.
  - destruct (wk_phase k) as [|i| |e].
    + split; [by intros ? | by intros (_ & _ & ?)].
    + split; [by intros ? | by intros (_ & _ & ?)].
    + split; [by intros ? | by intros (_ & _ & ?)].
    + split; [done|]. intros (_ & H & _). by destruct (H e).
  - destruct (wk_phase k1); try done. split; [done | by intros [? _]].
Qed.

Lemma handled_total_app l1 k l2 :
  handled_total (l1 ++ k :: l2)
  = handled_total l1 + Z.of_nat (handled k) + handled_total l2.
Proof.
  unfold handled_total. induction l1 as [|k1 l1 IH]; simpl; [lia|].
  rewrite IH. lia.
Qed.

Lemma handled_total_closed ws :
  first_crash ws = None -> forallb is_closed ws = true ->
  handled_total ws = Z.of_nat (length (concat (map wk_urls ws))).
Proof.
  induction ws as [|k ws IH]; simpl; [done|].
  unfold is_closed, handled.
  destruct (wk_phase k); try done. simpl. intros Hc Hall.
  rewrite length_app, IH by done. lia.
Qed.

Lemma worker_booked_same w w' k :
  (forall u, accounted w u -> accounted w' u) ->
  worker_booked w k -> worker_booked w' k.
Proof. intros Hm [Hle Hk]. split; [done|]. intros j u Hj Hu. eauto. Qed.

(** One worker moves, and the books move with it. *)
Lemma booked_move l1 k k' l2 w w' :
  booked (l1 ++ k :: l2) w ->
  (forall e, wk_phase k <> Crashed e) ->
  (forall u, accounted w u -> accounted w' u) ->
  rs_success (res w') + rs_failed (res w')
  = rs_success (res w) + rs_failed (res w)
    + (Z.of_nat (handled k') - Z.of_nat (handled k)) ->
  progress_current w'
  = progress_current w + (Z.of_nat (handled k') - Z.of_nat (handled k)) ->
  Z.of_nat (length (rs_failed_urls (res w'))) - rs_failed (res w')
  = Z.of_nat (length (rs_failed_urls (res w))) - rs_failed (res w) ->
  (worker_booked w k -> worker_booked w' k') ->
  booked (l1 ++ k' :: l2) w'.
Proof.
  intros Hb Hk Hm Hsum Hpg Hlen Hwk Hnc.
  apply first_crash_app in Hnc as (Hc1 & Hck & Hc2).
  destruct Hb as (Ht & Hp & Hl & Hall).
  { apply first_crash_app. by repeat split. }
  rewrite handled_total_app in *.
  rewrite Forall_app, Forall_cons in Hall. destruct Hall as (H1 & Hbk & H2).
  split; [lia|]. split; [lia|]. split; [lia|].
  rewrite Forall_app, Forall_cons. split; [|split].
  - eapply Forall_impl; [exact H1|]. intros k0. by apply worker_booked_same.
  - by apply Hwk.
  - eapply Forall_impl; [exact H2|]. intros k0. by apply worker_booked_same.
Qed.

Lemma step_domain_booked envs cfg um d ws w ws' w' :
  step_domain envs cfg um d [] ws w = Some (ws', w') ->
  booked ws w -> booked ws' w'.
Proof.
  intros H Hb.
  apply step_domain_cases in H as [[-> ->]|(l1 & k & l2 & k' & -> & -> & Hs)];
    [done|].
  rewrite app_nil_l in *.
  apply worker_step_cases in Hs
    as (Hurls & [[-> ->]|[(Hp & _ & -> & Hk')
                         |[(i & ui & f & rest & r & Hp & Hi & Hq & Hpr & Hk')
                          |(i & Hp & Hlen & Hk' & ->)]]]).
  - done.
  - intros Hnc. pose proof Hnc as Hnc'.
    apply first_crash_app in Hnc' as (_ & Hck & _).
    destruct Hk' as [Hk'|[e Hk']]; [|by destruct (Hck e)].
    revert Hnc.
    assert (Hh : handled k' = handled k)
      by (unfold handled; by rewrite Hp, Hk').
    apply (booked_move l1 k k' l2 w); try done.
    + intros e. by rewrite Hp.
    + rewrite Hh. cbn. lia.
    + rewrite Hh. cbn. lia.
    + intros [Hle Hbk]. split; rewrite Hh, Hurls; done.
  - intros Hnc. pose proof Hnc as Hnc'.
    apply first_crash_app in Hnc' as (_ & Hck & _).
    destruct r as [[]|e]; [|by destruct (Hck e)].
    revert Hnc.
    assert (Hm : forall u, accounted w u -> accounted w' u)
      by (intros u; by eapply process_url_accounted).
    destruct (process_url_books _ _ _ _ _ _ _ _ _ Hpr) as (Hp1 & Hcase).
    assert (Hh : Z.of_nat (handled k') - Z.of_nat (handled k) = 1)
      by (unfold handled; rewrite Hp, Hk'; lia).
    assert (Hui : accounted w' ui
                  /\ rs_success (res w') + rs_failed (res w')
                     = rs_success (res w) + rs_failed (res w) + 1
                  /\ Z.of_nat (length (rs_failed_urls (res w')))
                     - rs_failed (res w')
                     = Z.of_nat (length (rs_failed_urls (res w)))
                       - rs_failed (res w)).
    { destruct Hcase as [(Hs1 & Hf1 & Hl1 & Hrec)|[(Hs1 & Hf1 & Hl1)|[Hne _]]];
        [| |by destruct (Hne tt)].
      - split; [by left|]. rewrite Hs1, Hf1, Hl1. lia.
      - split; [right; rewrite Hl1; apply in_or_app; right; by left|].
        rewrite Hs1, Hf1, Hl1, length_app. simpl. lia. }
    destruct Hui as (Hacc & Hsum & Hlen').
    apply (booked_move l1 k k' l2 w); try done.
    + intros e. by rewrite Hp.
    + by rewrite Hh.
    + by rewrite Hh.
    + intros [Hle Hbk]. split.
      * unfold handled. rewrite Hk', Hurls. apply lookup_lt_Some in Hi. lia.
      * unfold handled. rewrite Hk', Hurls. intros j u Hj Hu.
        destruct (decide (j = i)) as [->|Hne].
        -- rewrite Hi in Hu. by injection Hu as <-.
        -- apply Hm. apply (Hbk j u); [|done]. unfold handled. rewrite Hp. lia.
  - intros Hnc. revert Hnc.
    assert (Hmid : worker_booked w k -> handled k' = handled k).
    { intros [Hle _]. unfold handled in *. rewrite Hp in Hle.
      rewrite Hp, Hk', Hurls. lia. }
    intros Hnc.
    assert (Hbk : worker_booked w k).
    { destruct Hb as (_ & _ & _ & Hall).
      - apply first_crash_app in Hnc as (Hc1 & _ & Hc2).
        apply first_crash_app. repeat split; try done. intros e. by rewrite Hp.
      - rewrite Forall_app, Forall_cons in Hall. by destruct Hall as (_ & ? & _). }
    specialize (Hmid Hbk). revert Hnc.
    apply (booked_move l1 k k' l2 w); try done.
    + intros e. by rewrite Hp.
    + rewrite Hmid. cbn. lia.
    + rewrite Hmid. cbn. lia.
    + intros [Hle Hk]. split; rewrite Hmid, Hurls; done.
Qed.

Lemma run_schedule_booked envs cfg um schedule ws w ws' w' :
  run_schedule envs cfg um schedule ws w = Some (ws', w') ->
  booked ws w -> booked ws' w'.
Proof.
  revert ws w. induction schedule as [|d schedule IH]; intros ws w H Hb.
  - by injection H as <- <-.
  - cbn [run_schedule] in H.
    destruct (step_domain envs cfg um d [] ws w) as [[ws1 w1]|] eqn:E1; [|done].
    eapply IH; [exact H|]. by eapply step_domain_booked.
Qed.

Lemma start_workers_booked domains w :
  res w = no_results -> progress_current w = 0 ->
  booked (start_workers domains) w.
Proof.
  intros Hr Hp _. rewrite Hr, Hp. simpl.
  assert (Hall : Forall (worker_booked w) (start_workers domains)
                 /\ handled_total (start_workers domains) = 0).
  { induction domains as [|d domains [IH1 IH2]]; [by split|].
    split.
    - constructor; [|done]. split; [unfold handled; simpl; lia|].
      intros j u Hj. unfold handled in Hj. simpl in Hj. lia.
    - unfold handled_total in *. simpl. by rewrite IH2. }
  destruct Hall as [Hall ->]. done.
Qed.

Lemma apply_limit_length n l :
  0 < n -> Z.of_nat (length (apply_limit (Some n) l)) <= n.
Proof.
  intros Hn. unfold apply_limit.
  destruct (Z.eqb_spec n 0); [lia|].
  pose proof (slice_to_length n l). lia.
Qed.

(** X11.  The summary of a run that is no dry run and ends normally
    accounts for every new URL, whatever the order in which the domain
    workers took their turns: successes and failures together are the
    number of new URLs (after the limit), the list of failed URLs has
    one entry per failure, and every new URL is in the registry or in
    that list.  A positive limit bounds the number of URLs handled. *)
Theorem run_summary_accounts_for_every_new_url
    envs cfg limit um schedule all_urls w r w' :
  run_scraper_async envs cfg false limit um schedule all_urls w
  = Some (RunReturns r w') ->
  rs_success r + rs_failed r
  = Z.of_nat (length (apply_limit limit (filter_new_urls all_urls (reg w))))
  /\ Z.of_nat (length (rs_failed_urls r)) = rs_failed r
  /\ (forall u,
        In u (apply_limit limit (filter_new_urls all_urls (reg w))) ->
        recorded w' u \/ In (url u) (rs_failed_urls r))
  /\ (forall n, limit = Some n -> 0 < n -> rs_success r + rs_failed r <= n).
Proof.
  intros H.
  assert (Hmain :
    rs_success r + rs_failed r
    = Z.of_nat (length (apply_limit limit (filter_new_urls all_urls (reg w))))
    /\ Z.of_nat (length (rs_failed_urls r)) = rs_failed r
    /\ (forall u,
          In u (apply_limit limit (filter_new_urls all_urls (reg w))) ->
          recorded w' u \/ In (url u) (rs_failed_urls r))).
  { revert H. unfold run_scraper_async, plan_run.
    set (new_urls := apply_limit limit (filter_new_urls all_urls (reg w))).
    destruct new_urls as [|u0 l0] eqn:En.
    { intros [= <- <-]. by repeat split. }
    rewrite <- En. clear En.
    set (w0 := World _ _ _ _ _ _ _).
    destruct (run_schedule envs cfg um schedule
                (start_workers (group_urls_by_domain new_urls)) w0)
      as [[ws w1]|] eqn:Er; [|done].
    destruct (first_crash ws) as [e|] eqn:Ec; [done|].
    destruct (forallb is_closed ws) eqn:Ecl; [|done].
    intros [= <- <-].
    destruct (run_schedule_booked _ _ _ _ _ _ _ _ Er
                (start_workers_booked _ w0 eq_refl eq_refl) Ec)
      as (Ht & _ & Hl & Hall).
    destruct (run_schedule_grows _ _ _ _ _ _ _ _ Er) as (_ & Hq & _);
      [simpl; lia|].
    rewrite (handled_total_closed _ Ec Ecl) in Ht.
    split; [|split; [done|]].
    - rewrite Ht, Hq. unfold start_workers. rewrite map_map. simpl.
      change (map (fun x => snd x) (group_urls_by_domain new_urls))
        with (map snd (group_urls_by_domain new_urls)).
      unfold group_urls_by_domain. by rewrite group_fold_concat.
    - intros u Hu.
      destruct (new_url_in_queue new_urls u Hu) as (q & Hq' & Huq).
      rewrite <- Hq in Hq'. apply in_map_iff in Hq' as (k & <- & Hk).
      apply list_elem_of_In, list_elem_of_lookup in Huq as [j Hj].
      rewrite Forall_forall in Hall.
      destruct (Hall k (proj2 (list_elem_of_In _ _) Hk)) as [_ Hbk].
      apply (Hbk j u); [|done].
      rewrite forallb_forall in Ecl. specialize (Ecl k Hk).
      unfold is_closed in Ecl. unfold handled.
      destruct (wk_phase k); try done.
      by apply lookup_lt_Some in Hj. }
  destruct Hmain as (Hsum & Hl & Hall).
  repeat split; try done.
  intros n -> Hn. rewrite Hsum. by apply apply_limit_length.
Qed.

End run_summary.

(** ** The registry and the archive agree *)

Section registry_archive.
Import PyStr Partition Archive ArchiveLookup Fetch Scheduler RunLedger.








End registry_archive.

Section run_witnesses.
Import PyStr Partition Archive Fetch Scheduler RunLedger Samples.

Lemma scrape_domain_queue_counts_every_url_witness :
  exists w',
    scrape_domain_queue (fun _ => env_always (Ret long_page)) (cfg_retries 3)
      true [foo_x; foo_y] fresh_world = Some (Ret tt, w')
    /\ progress_current w' = 2.
Proof.
  eexists. split; [vm_compute; reflexivity|].
  apply (scrape_domain_queue_counts_every_url
           (fun _ => env_always (Ret long_page)) (cfg_retries 3) true
           [foo_x; foo_y] fresh_world).
  vm_compute. reflexivity.
Defined.

Lemma run_summary_accounts_for_every_new_url_witness :
  exists r w',
    run_scraper_async
      (fun _ i => if decide (i = 0%nat) then env_always (Ret long_page)
                  else env_always (Raise connection_error))
      (cfg_retries 0) false None true (replicate 4 "a.example")
      [foo_x; foo_y] fresh_world
    = Some (RunReturns r w')
    /\ rs_success r + rs_failed r = 2
    /\ Z.of_nat (length (rs_failed_urls r)) = rs_failed r.
Proof.
  eexists. eexists. split; [vm_compute; reflexivity|].
  pose proof (run_summary_accounts_for_every_new_url
                (fun _ i => if decide (i = 0%nat)
                            then env_always (Ret long_page)
                            else env_always (Raise connection_error))
                (cfg_retries 0) None true (replicate 4 "a.example")
                [foo_x; foo_y] fresh_world) as H.
  specialize (H _ _ ltac:(vm_compute; reflexivity)).
  destruct H as (H1 & H2 & _). split; [exact H1 | exact H2].
Defined.



End run_witnesses.

(** ** Buttons are added once *)

Section buttons_facts.
Import PyStr Buttons.

Lemma starts_with_prefix p q : starts_with p (p ++ q) = true.
Proof.
  induction p as [|a p IH]; simpl; [done|].
  by rewrite bool_decide_eq_true_2, IH.
Qed.

Lemma contains_chars_here needle s :
  starts_with needle s = true -> contains_chars needle s = true.
Proof. destruct s; simpl; by intros ->. Qed.

Lemma contains_chars_app_r needle p s :
  contains_chars needle s = true -> contains_chars needle (p ++ s) = true.
Proof.
  intros H. induction p as [|a p IH]; simpl; [done|].
  rewrite IH. by rewrite orb_true_r.
Qed.


Lemma contains_chars_mid needle p q :
  contains_chars needle (p ++ needle ++ q) = true.
Proof. apply contains_chars_app_r, contains_chars_here, starts_with_prefix. Qed.

Lemma contains_chars_nil c needle : contains_chars (c :: needle) [] = false.
Proof. done. Qed.











End buttons_facts.

(** ** A fetched page is archived *)

Section turn_archives.
Import PyStr Partition Archive Fetch Scheduler RunLedger.






End turn_archives.

Section turn_archives_witness.
Import PyStr Partition Archive Fetch Scheduler RunLedger Samples.


End turn_archives_witness.
